(** * KOL analytics service: a shallow embedding of
      [backend/app/models.py] and [backend/app/services/kol_service.py]

    Python integers are [Z]; Python floats are IEEE-754 binary64 values,
    taken from the Standard Library's executable specification
    [SpecFloat]; a Python number is either of the two. A [str] is held as
    the bytes of its UTF-8 encoding: equality, the order of [sorted] and
    the substring test [in] are the same on the bytes as on the
    characters. Exceptions are an error type, and fallible code lives in
    the [result] monad. The dict [_kols_by_id] is a [gmap]; a [Counter],
    whose iteration order matters, is an association list in insertion
    order.

    Two operations belong to the interpreter and to pydantic and are not
    defined by the source: [str.lower], which follows the Unicode
    database of the interpreter, and the conversion by which pydantic, in
    its lax mode, reads a bool, a float or a str as an [int]. The code
    that uses them takes them as the parameters [lower] and [lax], and
    what is proved holds for every such function. *)

From Stdlib Require Import ZArith QArith Qpower Qround Lqa String Ascii List.
From Stdlib Require Import Floats.SpecFloat.
From stdpp Require Import base tactics option list gmap strings pretty sorting.

Local Open Scope string_scope.
Local Open Scope Z_scope.

(** ** Exceptions and the error monad *)

Module Py.

(** What pydantic reports about one field. [Value_error] carries the
    message of a [ValueError] raised by a validator of the model. *)
Inductive field_error : Type :=
  | Missing
  | Wrong_type
  | Too_short
  | Too_long
  | Below_minimum
  | Above_maximum
  | Value_error (msg : string).

Inductive exn : Type :=
  | ValueError (msg : string)
  | ZeroDivisionError
  | OverflowError
  | TypeError
  | OSError
  | FileNotFoundError
  | UnicodeDecodeError
  | JSONDecodeError
  | ValidationError (errors : list (string * field_error)).

Inductive result (A : Type) : Type :=
  | Ok (a : A)
  | Raise (e : exn).
Arguments Ok {A} a.
Arguments Raise {A} e.

#[global] Instance result_ret : MRet result := fun _ a => Ok a.
#[global] Instance result_bind : MBind result := fun _ _ k r =>
  match r with
  | Ok a => k a
  | Raise e => Raise e
  end.

(** [[f(x) for x in l]] when [f] may raise: left to right, the first
    exception aborts the comprehension. *)
Fixpoint comprehension {A B} (f : A -> result B) (l : list A) : result (list B) :=
  match l with
  | [] => Ok []
  | x :: l' => y ← f x; ys ← comprehension f l'; Ok (y :: ys)
  end.

(** ** Numbers *)

Definition prec : Z := 53.
Definition emax : Z := 1024.

Abbreviation float := spec_float.

Inductive num : Type :=
  | Int (z : Z)
  | Float (f : float).

(** The integer [z] seen as the (unnormalised) binary float [z * 2^0]. *)
Definition Z2SF (z : Z) : float :=
  match z with
  | Z0 => S754_zero false
  | Zpos p => S754_finite false p 0
  | Zneg p => S754_finite true p 0
  end.

(** [float(z)]: the nearest double, ties to even; an integer beyond the
    double range raises. *)
Definition int_to_float (z : Z) : result float :=
  match binary_normalize prec emax z 0 false with
  | S754_infinity _ => Raise OverflowError
  | f => Ok f
  end.

(** [a / b] on two ints: the correctly rounded quotient. *)
Definition int_true_div (a b : Z) : result float :=
  if b =? 0 then Raise ZeroDivisionError
  else match SFdiv prec emax (Z2SF a) (Z2SF b) with
       | S754_infinity _ => Raise OverflowError
       | f => Ok f
       end.

Definition float_is_zero (f : float) : bool :=
  match f with
  | S754_zero _ => true
  | _ => false
  end.

Definition float_div (x y : float) : result float :=
  if float_is_zero y then Raise ZeroDivisionError
  else Ok (SFdiv prec emax x y).

Definition to_float (n : num) : result float :=
  match n with
  | Int z => int_to_float z
  | Float f => Ok f
  end.

(** [x - y] *)
Definition sub (x y : num) : result num :=
  match x, y with
  | Int a, Int b => Ok (Int (a - b))
  | _, _ => fx ← to_float x; fy ← to_float y;
            Ok (Float (SFsub prec emax fx fy))
  end.

(** [x * y] *)
Definition mul (x y : num) : result num :=
  match x, y with
  | Int a, Int b => Ok (Int (a * b))
  | _, _ => fx ← to_float x; fy ← to_float y;
            Ok (Float (SFmul prec emax fx fy))
  end.

(** [x / y] *)
Definition div (x y : num) : result num :=
  match x, y with
  | Int a, Int b => f ← int_true_div a b; Ok (Float f)
  | _, _ => fx ← to_float x; fy ← to_float y;
            f ← float_div fx fy; Ok (Float f)
  end.

(** *** Comparison

    Python compares an int with a float by exact value, and two floats as
    IEEE-754 does; both are the order of the extended rationals below,
    where a NaN is unordered. *)

Inductive xval : Type :=
  | XNaN
  | XNegInf
  | XFin (q : Q)
  | XPosInf.

Definition float_val (f : float) : xval :=
  match f with
  | S754_nan => XNaN
  | S754_infinity s => if s then XNegInf else XPosInf
  | S754_zero _ => XFin 0
  | S754_finite s m e =>
      XFin (inject_Z (if s then Zneg m else Zpos m) * Qpower 2 e)
  end.

Definition num_val (n : num) : xval :=
  match n with
  | Int z => XFin (inject_Z z)
  | Float f => float_val f
  end.

Definition Qltb (p q : Q) : bool :=
  match Qcompare p q with Lt => true | _ => false end.

Definition xval_ltb (x y : xval) : bool :=
  match x, y with
  | XNaN, _ | _, XNaN => false
  | XNegInf, XNegInf => false
  | XNegInf, _ => true
  | _, XNegInf => false
  | XPosInf, _ => false
  | _, XPosInf => true
  | XFin p, XFin q => Qltb p q
  end.

(** [x > y] *)
Definition gt (x y : num) : bool := xval_ltb (num_val y) (num_val x).
(** [x < y] *)
Definition lt (x y : num) : bool := xval_ltb (num_val x) (num_val y).
(** [x >= y] *)
Definition ge (x y : num) : bool :=
  match num_val x, num_val y with
  | XNaN, _ | _, XNaN => false
  | vx, vy => negb (xval_ltb vx vy)
  end.
(** [x <= y] *)
Definition le (x y : num) : bool := ge y x.

Definition is_zero (n : num) : bool :=
  match n with
  | Int z => z =? 0
  | Float f => float_is_zero f
  end.

(** [round(x, ndigits)] for a non-negative [ndigits]. An int is returned
    unchanged. A finite non-zero float is rounded to [ndigits] decimals on
    its exact binary value, ties to even, and the decimal so obtained is
    converted back to the nearest double; the sign is kept. *)
Definition round_half_even (q : Q) : Z :=
  let fl := Qfloor q in
  match Qcompare (q - inject_Z fl) (1 # 2) with
  | Lt => fl
  | Gt => fl + 1
  | Eq => if Z.even fl then fl else fl + 1
  end.

Definition float_round (f : float) (ndigits : nat) : result float :=
  match f with
  | S754_finite s m e =>
      let scale := 10 ^ Z.of_nat ndigits in
      let digits := round_half_even (inject_Z (Zpos m * scale) * Qpower 2 e) in
      let signed := match digits with
                    | Zpos p => S754_finite s p 0
                    | _ => S754_zero s
                    end in
      match SFdiv prec emax signed (Z2SF scale) with
      | S754_infinity _ => Raise OverflowError
      | r => Ok r
      end
  | _ => Ok f
  end.

Definition round (x : num) (ndigits : nat) : result num :=
  match x with
  | Int z => Ok (Int z)
  | Float f => r ← float_round f ndigits; Ok (Float r)
  end.

(** ** Strings *)

(** The characters of a str: in UTF-8 a character begins at each byte
    which is not a continuation byte, that is, not of the form
    [10xxxxxx]. *)
Definition continuation (s : string) : bool :=
  match s with
  | String c _ => let n := nat_of_ascii c in (128 <=? n)%nat && (n <? 192)%nat
  | EmptyString => false
  end.

Fixpoint characters (s : string) : list string :=
  match s with
  | EmptyString => []
  | String c s' =>
      match characters s' with
      | ch :: rest =>
          if continuation ch then String c ch :: rest
          else String c EmptyString :: ch :: rest
      | [] => [String c EmptyString]
      end
  end.

End Py.

Import Py.

(** ** models.py *)

Module Models.

(** A value of the document which [json.load] returns: [None], a bool,
    an int, a float, a str, a list, or a dict, whose keys are strs. *)
#[warnings="-register-all"]
Inductive pyval : Type :=
  | PyNone
  | PyBool (b : bool)
  | PyInt (z : Z)
  | PyFloat (f : float)
  | PyStr (s : string)
  | PyList (items : list pyval)
  | PyDict (items : gmap string pyval).

(** A model field: its name, what a missing key is replaced by ([None]
    when the field is required), and its validation, which maps the value
    supplied and the dict [values] of the fields validated so far to the
    validated value or to an error message. *)
Record field : Type := Field {
  field_name : string;
  field_default : option pyval;
  field_validate : gmap string pyval -> pyval -> pyval + field_error
}.

(** [str], with an optional [min_length], which counts characters *)
Definition str_type (min_length : nat) (v : pyval) : pyval + field_error :=
  match v with
  | PyStr s =>
      if (length (characters s) <? min_length)%nat
      then inr Too_short
      else inl (PyStr s)
  | _ => inr Wrong_type
  end.

(** [Optional[str]] *)
Definition optional_str_type (v : pyval) : pyval + field_error :=
  match v with
  | PyNone => inl PyNone
  | _ => str_type 0 v
  end.

Section Lax.
(** The conversion to [int] of pydantic's lax mode: the integer read from
    a bool, a float or a str, or the error reported for it. *)
Variable lax : pyval -> Z + field_error.

(** [int]: an int is kept; a bool, a float or a str is left to the lax
    conversion; [None], a list or a dict is refused. *)
Definition int_type (v : pyval) : Z + field_error :=
  match v with
  | PyInt z => inl z
  | PyBool _ | PyFloat _ | PyStr _ => lax v
  | PyNone | PyList _ | PyDict _ => inr Wrong_type
  end.

(** [int], with [ge=0] *)
Definition int_ge0_type (v : pyval) : pyval + field_error :=
  match int_type v with
  | inl z =>
      if z <? 0 then inr Below_minimum
      else inl (PyInt z)
  | inr err => inr err
  end.

(** [KOL.validate_publications_vs_hindex(cls, v, values)] *)
Definition validate_publications_vs_hindex
    (v : Z) (values : gmap string pyval) : result Z :=
  match values !! "hIndex" with
  | Some (PyInt h) =>
      if v <? h
      then Raise (ValueError ("publicationsCount (" ++ pretty v ++
                              ") must be >= hIndex (" ++ pretty h ++ ")"))
      else Ok v
  | _ => Ok v
  end.

(** The type of [publicationsCount] followed by its [@validator]. *)
Definition publicationsCount_validate
    (values : gmap string pyval) (v : pyval) : pyval + field_error :=
  match int_ge0_type v with
  | inl (PyInt z) =>
      match validate_publications_vs_hindex z values with
      | Ok z' => inl (PyInt z')
      | Raise (ValueError msg) => inr (Value_error msg)
      | Raise _ => inr (Value_error EmptyString)
      end
  | r => r
  end.

End Lax.

(** The fields of [KOL], in the order of their declaration. *)
Definition KOL_fields (lax : pyval -> Z + field_error) : list field :=
  [ Field "id" None (fun _ => str_type 0);
    Field "name" None (fun _ => str_type 1);
    Field "affiliation" None (fun _ => str_type 0);
    Field "country" None (fun _ => str_type 1);
    Field "city" (Some PyNone) (fun _ => optional_str_type);
    Field "expertiseArea" None (fun _ => str_type 0);
    Field "publicationsCount" None (publicationsCount_validate lax);
    Field "hIndex" None (fun _ => int_ge0_type lax);
    Field "citations" None (fun _ => int_ge0_type lax) ].

(** Validation of one model instance: the fields are validated one after
    the other in declaration order; a validated value is added to
    [values], a failure to the list of errors, and validation goes on with
    the next field in both cases. *)
Fixpoint validate_fields (fields : list field) (item values : gmap string pyval)
    (errors : list (string * field_error))
    : gmap string pyval * list (string * field_error) :=
  match fields with
  | [] => (values, errors)
  | f :: rest =>
      let outcome :=
        match item !! field_name f, field_default f with
        | Some v, _ => field_validate f values v
        | None, Some d => inl d
        | None, None => inr Missing
        end in
      match outcome with
      | inl v => validate_fields rest item (<[field_name f := v]> values) errors
      | inr err => validate_fields rest item values (errors ++ [(field_name f, err)])
      end
  end.

Record KOL : Type := {
  id : string;
  name : string;
  affiliation : string;
  country : string;
  city : option string;
  expertiseArea : string;
  publicationsCount : Z;
  hIndex : Z;
  citations : Z
}.

Definition KOL_of_values (values : gmap string pyval) : option KOL :=
  match values !! "id", values !! "name", values !! "affiliation",
        values !! "country", values !! "city", values !! "expertiseArea",
        values !! "publicationsCount", values !! "hIndex", values !! "citations"
  with
  | Some (PyStr i), Some (PyStr n), Some (PyStr a), Some (PyStr c), Some ci,
    Some (PyStr x), Some (PyInt p), Some (PyInt h), Some (PyInt ct) =>
      Some {| id := i; name := n; affiliation := a; country := c;
              city := match ci with PyStr s => Some s | _ => None end;
              expertiseArea := x; publicationsCount := p; hIndex := h;
              citations := ct |}
  | _, _, _, _, _, _, _, _, _ => None
  end.

(** The constructor call of [KOL] on the keyword arguments [item]. *)
Definition KOL_new (lax : pyval -> Z + field_error) (item : gmap string pyval)
    : result KOL :=
  match validate_fields (KOL_fields lax) item ∅ [] with
  | (values, []) =>
      match KOL_of_values values with
      | Some kol => Ok kol
      | None => Raise TypeError
      end
  | (_, errors) => Raise (ValidationError errors)
  end.

(** A [float] field: an int is converted, a float is kept. *)
Definition float_type (v : num) : result float := to_float v.

Definition float_ge (f : float) (bound : Z) : bool := ge (Float f) (Int bound).
Definition float_le (f : float) (bound : Z) : bool := le (Float f) (Int bound).

Module CountryDistribution.
Record t : Type := {
  country : string;
  count : Z;
  percentage : float
}.

Definition new (country : string) (count : Z) (percentage : num) : result t :=
  p ← float_type percentage;
  if count <? 0 then Raise (ValidationError [("count", Below_minimum)])
  else if negb (float_ge p 0) then Raise (ValidationError [("percentage", Below_minimum)])
  else if negb (float_le p 100) then Raise (ValidationError [("percentage", Above_maximum)])
  else Ok {| country := country; count := count; percentage := p |}.
End CountryDistribution.

Module ExpertiseDistribution.
Record t : Type := {
  expertiseArea : string;
  count : Z;
  percentage : float
}.

Definition new (expertiseArea : string) (count : Z) (percentage : num) : result t :=
  p ← float_type percentage;
  if count <? 0 then Raise (ValidationError [("count", Below_minimum)])
  else if negb (float_ge p 0) then Raise (ValidationError [("percentage", Below_minimum)])
  else if negb (float_le p 100) then Raise (ValidationError [("percentage", Above_maximum)])
  else Ok {| expertiseArea := expertiseArea; count := count; percentage := p |}.
End ExpertiseDistribution.

Module TopCitationRatioKOL.
Record t : Type := {
  kol : KOL;
  ratio : float;
  percentageAboveAverage : float
}.

Definition new (kol : KOL) (ratio percentageAboveAverage : num) : result t :=
  r ← float_type ratio;
  p ← float_type percentageAboveAverage;
  if negb (float_ge r 0) then Raise (ValidationError [("ratio", Below_minimum)])
  else Ok {| kol := kol; ratio := r; percentageAboveAverage := p |}.
End TopCitationRatioKOL.

Module KOLStats.
Record t : Type := {
  totalKOLs : Z;
  totalPublications : Z;
  countriesRepresented : Z;
  avgHIndex : float;
  avgCitationsPerPublication : float;
  topCountries : list CountryDistribution.t;
  expertiseDistribution : list ExpertiseDistribution.t;
  topCitationRatioKOL : TopCitationRatioKOL.t
}.

Definition new (totalKOLs totalPublications countriesRepresented : Z)
    (avgHIndex avgCitationsPerPublication : num)
    (topCountries : list CountryDistribution.t)
    (expertiseDistribution : list ExpertiseDistribution.t)
    (topCitationRatioKOL : TopCitationRatioKOL.t) : result t :=
  h ← float_type avgHIndex;
  c ← float_type avgCitationsPerPublication;
  if totalKOLs <? 0 then Raise (ValidationError [("totalKOLs", Below_minimum)])
  else if totalPublications <? 0
    then Raise (ValidationError [("totalPublications", Below_minimum)])
  else if countriesRepresented <? 0
    then Raise (ValidationError [("countriesRepresented", Below_minimum)])
  else if negb (float_ge h 0) then Raise (ValidationError [("avgHIndex", Below_minimum)])
  else if negb (float_ge c 0)
    then Raise (ValidationError [("avgCitationsPerPublication", Below_minimum)])
  else if (10 <? length topCountries)%nat
    then Raise (ValidationError [("topCountries", Too_long)])
  else Ok {| totalKOLs := totalKOLs; totalPublications := totalPublications;
             countriesRepresented := countriesRepresented;
             avgHIndex := h; avgCitationsPerPublication := c;
             topCountries := topCountries;
             expertiseDistribution := expertiseDistribution;
             topCitationRatioKOL := topCitationRatioKOL |}.
End KOLStats.

End Models.

Import Models.

(** ** Library functions used by the service *)

Module Builtins.

(** [sum(iterable)] over ints *)
Definition sum (l : list Z) : Z := foldl Z.add 0 l.

(** [max(iterable, key=key)]: a linear scan which replaces the current
    best item only by an item whose key is strictly greater. *)
Fixpoint max_scan {A} (key : A -> num) (best : A) (l : list A) : A :=
  match l with
  | [] => best
  | x :: l' => max_scan key (if gt (key x) (key best) then x else best) l'
  end.

Definition max {A} (key : A -> num) (l : list A) : result A :=
  match l with
  | [] => Raise (ValueError "max() arg is an empty sequence")
  | x :: l' => Ok (max_scan key x l')
  end.

(** [sorted(iterable, key=key, reverse=True)] with int keys: a stable sort
    into descending key order, items of equal key keeping the order they
    have in [iterable]. *)
Fixpoint insert_desc {A} (key : A -> Z) (x : A) (l : list A) : list A :=
  match l with
  | [] => [x]
  | y :: l' => if key x <? key y then y :: insert_desc key x l' else x :: y :: l'
  end.

Fixpoint sorted_reverse {A} (key : A -> Z) (l : list A) : list A :=
  match l with
  | [] => []
  | x :: l' => insert_desc key x (sorted_reverse key l')
  end.

(** [collections.Counter]: the items of the dict, in insertion order. *)
Abbreviation counter := (list (string * Z)).

(** [self[elem] = self.get(elem, 0) + 1] *)
Fixpoint counter_incr (elem : string) (c : counter) : counter :=
  match c with
  | [] => [(elem, 1)]
  | (k, n) :: c' =>
      if decide (k = elem) then (k, n + 1) :: c' else (k, n) :: counter_incr elem c'
  end.

(** [Counter(iterable)] *)
Definition Counter (iterable : list string) : counter :=
  foldl (fun c elem => counter_incr elem c) [] iterable.

(** [Counter.most_common(n)], which is
    [heapq.nlargest(n, self.items(), key=itemgetter(1))], the first [n]
    items of [sorted(self.items(), key=itemgetter(1), reverse=True)]. *)
Definition most_common (n : nat) (c : counter) : counter :=
  take n (sorted_reverse snd c).

(** [needle in haystack] on strings *)
Fixpoint contains (needle haystack : string) : bool :=
  String.prefix needle haystack ||
  match haystack with
  | EmptyString => false
  | String _ rest => contains needle rest
  end.

(** [sorted(iterable)] on strings: a stable sort into ascending order,
    strings being compared character by character. *)
Fixpoint insert_asc (x : string) (l : list string) : list string :=
  match l with
  | [] => [x]
  | y :: l' => if String.ltb y x then y :: insert_asc x l' else x :: y :: l'
  end.

Fixpoint sorted (l : list string) : list string :=
  match l with
  | [] => []
  | x :: l' => insert_asc x (sorted l')
  end.

(** [any(iterable)] on booleans *)
Definition any (l : list bool) : bool := existsb (fun b => b) l.

(** [len(s)] *)
Definition len {A} (l : list A) : Z := Z.of_nat (length l).

(** What a [for] loop or a comprehension iterates over: the items of a
    list, the keys of a dict, the characters of a str; any other value of
    a JSON document is not iterable. The keys of a dict come in the order
    of the [gmap], not in the order of insertion. *)
Definition iter (v : pyval) : result (list pyval) :=
  match v with
  | PyList items => Ok items
  | PyDict items => Ok (PyStr <$> (map_to_list items).*1)
  | PyStr s => Ok (PyStr <$> characters s)
  | PyNone | PyBool _ | PyInt _ | PyFloat _ => Raise TypeError
  end.

End Builtins.

Import Builtins.

(** ** services/kol_service.py *)

Module KOLService.

Record t : Type := {
  _kols : list KOL;
  _kols_by_id : gmap string KOL
}.

(** What is found at [settings.json_data_path]: no file; a file which
    [open] or [json.load] fails on, with the exception raised (an
    [OSError] for a directory or a file that may not be read, a
    [UnicodeDecodeError] for bytes that are not UTF-8, a
    [JSONDecodeError] for a text that is not JSON, a [ValueError] for an
    integer of too many digits); or the document parsed, which may be any
    JSON value. *)
Inductive data_file : Type :=
  | Absent
  | Unreadable (e : exn)
  | Parsed (raw_data : pyval).

(** The dict comprehension [{kol.id: kol for kol in kols}]. *)
Definition index_by_id (kols : list KOL) : gmap string KOL :=
  foldl (fun d kol => <[id kol := kol]> d) ∅ kols.

Section Runtime.
(** The lax conversion of pydantic and [str.lower]. *)
Variable lax : pyval -> Z + field_error.
Variable lower : string -> string.

(** [KOL] called on the keyword arguments unpacked from [item]: only a
    dict can be unpacked. *)
Definition KOL_of_item (item : pyval) : result KOL :=
  match item with
  | PyDict kwargs => KOL_new lax kwargs
  | _ => Raise TypeError
  end.

(** Each of the three handlers of the [try] statement prints a message
    and raises the exception again; the messages printed are left out. *)
Definition _load_data (file : data_file) : result t :=
  match file with
  | Absent => Raise FileNotFoundError
  | Unreadable e => Raise e
  | Parsed raw_data =>
      items ← iter raw_data;
      kols ← comprehension KOL_of_item items;
      Ok {| _kols := kols; _kols_by_id := index_by_id kols |}
  end.

Definition get_all_kols (self : t) : list KOL := _kols self.

Definition get_kol_by_id (self : t) (kol_id : string) : option KOL :=
  _kols_by_id self !! kol_id.

(** [(count / total_kols) * 100] *)
Definition percentage (count total_kols : Z) : result num :=
  q ← div (Int count) (Int total_kols);
  mul q (Int 100).

(** [kol.citations / kol.publicationsCount if kol.publicationsCount > 0 else 0] *)
Definition citation_ratio (kol : KOL) : result num :=
  if publicationsCount kol >? 0
  then div (Int (citations kol)) (Int (publicationsCount kol))
  else Ok (Int 0).

(** [total_citations / total_publications if total_publications > 0 else 0] *)
Definition avg_citations_per_pub (kols : list KOL) : result num :=
  let total_publications := sum (publicationsCount <$> kols) in
  let total_citations := sum (citations <$> kols) in
  if total_publications >? 0
  then div (Int total_citations) (Int total_publications)
  else Ok (Int 0).

Definition top_countries (kols : list KOL) : result (list CountryDistribution.t) :=
  let total_kols := Z.of_nat (length kols) in
  let country_counts := Counter (country <$> kols) in
  comprehension
    (fun '(country, count) =>
       p ← percentage count total_kols;
       CountryDistribution.new country count p)
    (most_common 10 country_counts).

Definition expertise_distribution (kols : list KOL)
    : result (list ExpertiseDistribution.t) :=
  let total_kols := Z.of_nat (length kols) in
  let expertise_counts := Counter (expertiseArea <$> kols) in
  comprehension
    (fun '(area, count) =>
       p ← percentage count total_kols;
       ExpertiseDistribution.new area count p)
    (sorted_reverse snd expertise_counts).

Definition kol_with_ratios (kols : list KOL) : result (list (KOL * num)) :=
  comprehension (fun kol => r ← citation_ratio kol; Ok (kol, r)) kols.

(** The local variables of [calculate_statistics] once the list
    [kol_with_ratios] has been built. *)
Record locals : Type := {
  total_kols : Z;
  total_publications : Z;
  avg_h_index : num;
  avg_citations : num;
  countries_represented : Z;
  countries : list CountryDistribution.t;
  expertise : list ExpertiseDistribution.t;
  ratios : list (KOL * num)
}.

Definition aggregates (kols : list KOL) : result locals :=
  let total_kols := Z.of_nat (length kols) in
  let total_publications := sum (publicationsCount <$> kols) in
  avg_h_index ← div (Int (sum (hIndex <$> kols))) (Int total_kols);
  avg ← avg_citations_per_pub kols;
  let countries_represented := Z.of_nat (length (Counter (country <$> kols))) in
  top ← top_countries kols;
  dist ← expertise_distribution kols;
  ratios ← kol_with_ratios kols;
  Ok {| total_kols := total_kols; total_publications := total_publications;
        avg_h_index := avg_h_index; avg_citations := avg;
        countries_represented := countries_represented;
        countries := top; expertise := dist; ratios := ratios |}.

Definition top_citation_ratio_kol (l : locals) : result TopCitationRatioKOL.t :=
  '(top_kol, top_ratio) ← max snd (ratios l);
  above ← sub top_ratio (avg_citations l);
  relative ← div above (avg_citations l);
  percentage_above_avg ← mul relative (Int 100);
  ratio ← round top_ratio 2;
  rounded ← round percentage_above_avg 2;
  TopCitationRatioKOL.new top_kol ratio rounded.

Definition calculate_statistics (self : t) : result KOLStats.t :=
  match _kols self with
  | [] => Raise (ValueError "No KOL data available for statistics calculation")
  | _ =>
      l ← aggregates (_kols self);
      top ← top_citation_ratio_kol l;
      avg_h ← round (avg_h_index l) 1;
      avg_c ← round (avg_citations l) 1;
      KOLStats.new (total_kols l) (total_publications l) (countries_represented l)
        avg_h avg_c (countries l) (expertise l) top
  end.

(** A truthy [Optional[str]]: neither [None] nor the empty string. *)
Definition truthy (s : option string) : option string :=
  match s with
  | Some EmptyString => None
  | _ => s
  end.

Definition search_kols (self : t) (query country_ expertise_area : option string)
    (min_h_index max_h_index : option Z) : list KOL :=
  let results := _kols self in
  let results :=
    match truthy query with
    | Some q =>
        let query_lower := lower q in
        filter (fun kol => contains query_lower (lower (name kol)) ||
                           contains query_lower (lower (affiliation kol))) results
    | None => results
    end in
  let results :=
    match truthy country_ with
    | Some c => filter (fun kol => country kol = c) results
    | None => results
    end in
  let results :=
    match truthy expertise_area with
    | Some a => filter (fun kol => expertiseArea kol = a) results
    | None => results
    end in
  let results :=
    match min_h_index with
    | Some m => filter (fun kol => m <= hIndex kol) results
    | None => results
    end in
  let results :=
    match max_h_index with
    | Some m => filter (fun kol => hIndex kol <= m) results
    | None => results
    end in
  results.

End Runtime.

(** [sorted(set(kol.country for kol in self._kols))] *)
Definition get_unique_countries (self : t) : list string :=
  sorted (elements (list_to_set (C := gset string) (country <$> _kols self))).

(** [sorted(set(kol.expertiseArea for kol in self._kols))] *)
Definition get_unique_expertise_areas (self : t) : list string :=
  sorted (elements (list_to_set (C := gset string) (expertiseArea <$> _kols self))).

End KOLService.

Import KOLService.

(** ** routers/kol_router.py *)

Module KolRouter.

(** [HTTPException(status_code=..., detail=...)] *)
Record HTTPException : Type := {
  status_code : Z;
  detail : string
}.

(** What an endpoint does: it returns a value or raises an
    [HTTPException]. *)
Definition endpoint (A : Type) : Type := A + HTTPException.

(** The truth value of an [Optional[str]]. *)
Definition truth (s : option string) : bool :=
  match s with
  | None | Some EmptyString => false
  | Some _ => true
  end.

(** [isinstance(e, ValueError)]: pydantic's [ValidationError],
    [json.JSONDecodeError] and [UnicodeDecodeError] derive from
    [ValueError]. *)
Definition is_ValueError (e : exn) : bool :=
  match e with
  | ValueError _ | ValidationError _ | JSONDecodeError | UnicodeDecodeError => true
  | _ => false
  end.

Section Endpoints.
(** The module-level service object [kol_service], [str(e)] for an
    exception whose text is produced by the Python runtime or by a
    library, and [str.lower]. *)
Context (kol_service : KOLService.t) (describe : exn -> string)
        (lower : string -> string).

(** [str(e)] *)
Definition str_exn (e : exn) : string :=
  match e with
  | ValueError msg => msg
  | _ => describe e
  end.

(** [get_kols]; [search_kols] and [get_all_kols] raise nothing, so the
    handler of the [try] statement has nothing to catch. *)
Definition get_kols (query country_ expertiseArea_ : option string)
    (minHIndex maxHIndex : option Z) : endpoint (list KOL) :=
  if any [truth query; truth country_; truth expertiseArea_;
          bool_decide (minHIndex ≠ None); bool_decide (maxHIndex ≠ None)]
  then inl (search_kols lower kol_service query country_ expertiseArea_
              minHIndex maxHIndex)
  else inl (get_all_kols kol_service).

Definition get_kol_stats : endpoint KOLStats.t :=
  match calculate_statistics kol_service with
  | Ok stats => inl stats
  | Raise e =>
      if is_ValueError e
      then inr {| status_code := 500;
                  detail := "Error calculating statistics: " ++ str_exn e |}
      else inr {| status_code := 500;
                  detail := "Unexpected error: " ++ str_exn e |}
  end.

Definition get_kol_by_id (kol_id : string) : endpoint KOL :=
  match KOLService.get_kol_by_id kol_service kol_id with
  | None => inr {| status_code := 404;
                   detail := "KOL with id '" ++ kol_id ++ "' not found" |}
  | Some kol => inl kol
  end.

Definition get_countries : endpoint (list string) :=
  inl (get_unique_countries kol_service).

Definition get_expertise_areas : endpoint (list string) :=
  inl (get_unique_expertise_areas kol_service).

End Endpoints.

End KolRouter.

(** ** main.py *)

Module Main.

(** [HealthResponse] of models.py, with its constraint [ge=0] on
    [total_kols]. *)
Module HealthResponse.
Record t : Type := {
  status : string;
  version : string;
  data_source : string;
  total_kols : Z
}.

Definition new (status version data_source : string) (total_kols : Z) : result t :=
  if total_kols <? 0 then Raise (ValidationError [("total_kols", Below_minimum)])
  else Ok {| status := status; version := version; data_source := data_source;
             total_kols := total_kols |}.
End HealthResponse.

(** The body of the [JSONResponse] built by [http_exception_handler]:
    the keys [error], [status_code] and [detail]. *)
Record error_content : Type := {
  error : string;
  content_status_code : Z;
  content_detail : option string
}.

Record JSONResponse : Type := {
  response_status_code : Z;
  content : error_content
}.

Definition http_exception_handler (exc : KolRouter.HTTPException) : JSONResponse :=
  {| response_status_code := KolRouter.status_code exc;
     content := {| error := KolRouter.detail exc;
                   content_status_code := KolRouter.status_code exc;
                   content_detail := None |} |}.

Section Health.
(** [kol_service], and the two settings which [health_check] reports. *)
Context (kol_service : KOLService.t) (app_version data_source : string).

(** [health_check]: the handler of the [try] statement answers with an
    unhealthy response when building the healthy one raises. *)
Definition health_check : result HealthResponse.t :=
  let kols := get_all_kols kol_service in
  match HealthResponse.new "healthy" app_version data_source (len kols) with
  | Ok response => Ok response
  | Raise _ => HealthResponse.new "unhealthy" app_version data_source 0
  end.
End Health.

End Main.

(** ** Notions used by the statements *)

(** A service object holding [kols], as [_load_data] builds it. *)
Definition service_of (kols : list KOL) : KOLService.t :=
  {| _kols := kols; _kols_by_id := index_by_id kols |}.

(** [s] occurs in [t]: [t] is some text, then [s], then some text. *)
Definition substring (s t : string) : Prop :=
  ∃ pre post, t = pre +:+ s +:+ post.

(** [q] is a substring of the name or of the affiliation of [kol] when
    letter case is ignored, that is, once the three texts are in lower
    case. *)
Definition text_matches (lower : string -> string) (q : string) (kol : KOL) : Prop :=
  substring (lower q) (lower (name kol)) ∨
  substring (lower q) (lower (affiliation kol)).

(** A predicate constrains a record only when it is supplied, that is,
    not [None]. *)
Definition when_supplied {A} (p : option A) (P : A -> KOL -> Prop) (kol : KOL) : Prop :=
  match p with
  | Some a => P a kol
  | None => True
  end.

#[global] Instance when_supplied_dec {A} (p : option A) (P : A -> KOL -> Prop)
  `{!∀ a k, Decision (P a k)} kol : Decision (when_supplied p P kol).
Proof. destruct p; apply _. Defined.

(** The test [in] of Python decides [substring]. *)
Lemma append_cons (c : ascii) (s t : string) : String c s +:+ t = String c (s +:+ t).
Proof. done. Qed.

Lemma prefix_spec (s t : string) :
  String.prefix s t = true ↔ ∃ post, t = s +:+ post.
Proof.
  revert t. induction s as [|c s IH]; intros t.
  - split; [intros _; by exists t|by destruct t].
  - destruct t as [|c' t]; cbn [String.prefix].
    + split; [done|]. by intros [post Hpost].
    + destruct (ascii_dec c c') as [<-|Hne].
      * rewrite IH. split; intros [post Hpost]; exists post.
        -- by rewrite append_cons, <-Hpost.
        -- rewrite append_cons in Hpost. by injection Hpost.
      * split; [done|]. intros [post Hpost].
        rewrite append_cons in Hpost. by injection Hpost as ->.
Qed.

Lemma contains_spec (s t : string) : contains s t = true ↔ substring s t.
Proof.
  unfold substring. induction t as [|c t IH]; cbn [contains].
  - rewrite orb_false_r, prefix_spec. split.
    + intros [post Hpost]. by exists EmptyString, post.
    + intros ([|c pre] & post & Hpost); [by exists post|done].
  - rewrite orb_true_iff, prefix_spec, IH. split.
    + intros [[post Hpost]|(pre & post & Hpost)].
      * by exists EmptyString, post.
      * exists (String c pre), post. by rewrite append_cons, <-Hpost.
    + intros ([|c' pre] & post & Hpost).
      * left. by exists post.
      * right. exists pre, post. rewrite append_cons in Hpost. by injection Hpost.
Qed.

#[global] Instance substring_dec (s t : string) : Decision (substring s t).
Proof.
  refine (cast_if (decide (contains s t = true))); by rewrite <-contains_spec.
Defined.

#[global] Instance text_matches_dec lower q kol : Decision (text_matches lower q kol).
Proof. unfold text_matches. apply _. Defined.

(** The search predicate as the specification words it: a record
    satisfies every predicate that is supplied. *)
Definition satisfies (lower : string -> string)
    (query country_ expertise_area : option string)
    (min_h_index max_h_index : option Z) (kol : KOL) : Prop :=
  when_supplied query (text_matches lower) kol ∧
  when_supplied country_ (fun c kol => country kol = c) kol ∧
  when_supplied expertise_area (fun a kol => expertiseArea kol = a) kol ∧
  when_supplied min_h_index (fun m kol => m <= hIndex kol) kol ∧
  when_supplied max_h_index (fun m kol => hIndex kol <= m) kol.

#[global] Instance satisfies_dec lower q c a mn mx kol :
  Decision (satisfies lower q c a mn mx kol).
Proof. unfold satisfies. apply _. Defined.

(** [l.index(x)]: the position of the first occurrence of [x] in [l]. *)
Fixpoint first_index (x : string) (l : list string) : option nat :=
  match l with
  | [] => None
  | y :: l' => if decide (y = x) then Some 0%nat else S <$> first_index x l'
  end.

(** The label [a] is encountered for the first time before the label [b]. *)
Definition first_encountered_before (l : list string) (a b : string) : Prop :=
  ∃ i j, first_index a l = Some i ∧ first_index b l = Some j ∧ (i < j)%nat.

(** The number of occurrences of [x] in [l]. *)
Definition occurrences (x : string) (l : list string) : Z :=
  Z.of_nat (length (filter (fun y => y = x) l)).

(** Some occurrence of [a] in [l] comes before some occurrence of [b]. *)
Definition before {A} (l : list A) (a b : A) : Prop :=
  ∃ i j, (i < j)%nat ∧ l !! i = Some a ∧ l !! j = Some b.

(** A distribution is in descending order of count, and entries of equal
    count are in the order in which their labels are first encountered
    in [seen]. *)
Definition ordered_by_count {E} (count : E -> Z) (label : E -> string)
    (seen : list string) (entries : list E) : Prop :=
  ∀ i j e1 e2, (i < j)%nat →
    entries !! i = Some e1 → entries !! j = Some e2 →
    count e2 <= count e1 ∧
    (count e1 = count e2 → first_encountered_before seen (label e1) (label e2)).

(** [count * 100 / total] in exact rational arithmetic. *)
Definition exact_percentage (total count : Z) : Q := (count * 100) # (Z.to_pos total).

Definition Qsum (qs : list Q) : Q := foldr Qplus 0%Q qs.

(** The rational number that a finite float denotes (0 for an infinity
    or a NaN). *)
Definition float_Q (f : float) : Q :=
  match float_val f with
  | XFin q => q
  | _ => 0%Q
  end.

(** The floats of [fs] added from left to right. *)
Definition float_sum (fs : list float) : float :=
  foldl (SFadd prec emax) (S754_zero false) fs.

(** The rational [m * 2^e]. *)
Definition val (m e : Z) : Q := (inject_Z m * (2 ^ e))%Q.

(** The relative size of one unit in the last place of a double of full
    width, and the smallest positive double. *)
Definition ulp_rel : Q := (2 ^ (-52))%Q.
Definition tiny : Q := (2 ^ (-1074))%Q.

(** An upper bound of the float [(count / total) * 100], as a function
    of the exact quotient [V] of [count] by [total]. *)
Definition percentage_bound (V : Q) : Q :=
  ((V * (1 + ulp_rel) + tiny) * 100 * (1 + ulp_rel) + tiny)%Q.

(** [count / total * 100] as the specification writes the percentage of
    an entry, evaluated in double precision: a division, then a
    multiplication by the double 100.0. *)
Definition hundred : float := S754_finite false 7036874417766400 (-46).

Definition percentage_of (count total : Z) : float :=
  SFmul prec emax (SFdiv prec emax (Z2SF count) (Z2SF total)) hundred.

(** The float [f] is a number, and it is the rational [q] up to a
    relative error of [2^-49] and an absolute error of [2^-1065], which
    leaves room for the rounding of a few operations on doubles. *)
Definition rounding_error (q : Q) : Q := (q * 2 ^ (-49) + 2 ^ (-1065))%Q.

Definition close_to (q : Q) (f : float) : Prop :=
  ∃ v, float_val f = XFin v ∧
       (q - rounding_error q <= v)%Q ∧ (v <= q + rounding_error q)%Q.

(** A lower bound of the float [(count / total) * 100], as a function of
    the exact quotient [V] of [count] by [total]. *)
Definition percentage_floor (V : Q) : Q :=
  ((V * (1 - 3 * ulp_rel) - 3 * tiny) * 100 * (1 - 3 * ulp_rel) - 3 * tiny)%Q.

(** The lower case of the letters A to Z, which is what [str.lower]
    does to a text of ASCII characters; the examples use it on such
    texts. *)
Definition lower_ascii (c : ascii) : ascii :=
  let n := nat_of_ascii c in
  if ((65 <=? n) && (n <=? 90))%nat then ascii_of_nat (n + 32) else c.

Fixpoint ascii_lower (s : string) : string :=
  match s with
  | EmptyString => EmptyString
  | String c s' => String (lower_ascii c) (ascii_lower s')
  end.

(** A lax conversion that reads nothing as an int; the examples hold
    ints where ints are expected. *)
Definition no_lax (v : pyval) : Z + field_error := inr Wrong_type.

(** Sample records. *)
Definition sample (i country_ area : string) (p h c : Z) : KOL :=
  {| id := i; name := "Dr " ++ i; affiliation := "University " ++ i;
     country := country_; city := None; expertiseArea := area;
     publicationsCount := p; hIndex := h; citations := c |}.

(** The fixture of three records with publications 10, 20, 5, h-index
    5, 8, 3 and citations 100, 200, 50. *)
Definition fixture : KOLService.t :=
  service_of [sample "1" "France" "Vitiligo" 10 5 100;
              sample "2" "Japan" "Psoriasis" 20 8 200;
              sample "3" "France" "Dermatology" 5 3 50].

(** The double 10.0. *)
Definition ten : float := S754_finite false 5629499534213120 (-49).

(** One record without citations whose counts exceed the range of a
    double. *)
Definition beyond_double : KOLService.t :=
  service_of [sample "1" "France" "Vitiligo" (10 ^ 400) (10 ^ 400) 0].

(** One record without publications. *)
Definition no_publications : KOLService.t :=
  service_of [sample "1" "France" "Vitiligo" 0 0 0].

(** A record set with one dermatologist. *)
Definition one_dermatologist : KOLService.t :=
  service_of [sample "1" "France" "Dermatology" 12 4 90].

(** A raw record with fewer publications than its h-index. *)
Definition raw_3_5 : gmap string pyval :=
  list_to_map
    [("id", PyStr "7"); ("name", PyStr "Dr Lee"); ("affiliation", PyStr "Clinic");
     ("country", PyStr "Korea"); ("expertiseArea", PyStr "Vitiligo");
     ("publicationsCount", PyInt 3); ("hIndex", PyInt 5); ("citations", PyInt 40)].

(** The record which [raw_3_5] describes, under the name [n]. *)
Definition sample_7 (n : string) : KOL :=
  {| id := "7"; name := n; affiliation := "Clinic"; country := "Korea";
     city := None; expertiseArea := "Vitiligo";
     publicationsCount := 3; hIndex := 5; citations := 40 |}.

(** The value [v] is the int [z], or a bool, a float or a str which the
    lax conversion reads as [z]. *)
Definition reads_as (lax : pyval -> Z + field_error) (v : option pyval) (z : Z) : Prop :=
  v = Some (PyInt z) ∨
  ∃ w, v = Some w ∧ lax w = inl z ∧
       ((∃ b, w = PyBool b) ∨ (∃ f, w = PyFloat f) ∨ (∃ s, w = PyStr s)).

(** What the field declarations of [KOL] ask of a raw record, [kol]
    being the record read from it. *)
Definition well_formed (lax : pyval -> Z + field_error)
    (item : gmap string pyval) (kol : KOL) : Prop :=
  item !! "id" = Some (PyStr (id kol)) ∧
  item !! "name" = Some (PyStr (name kol)) ∧ name kol ≠ EmptyString ∧
  item !! "affiliation" = Some (PyStr (affiliation kol)) ∧
  item !! "country" = Some (PyStr (country kol)) ∧ country kol ≠ EmptyString ∧
  match city kol with
  | Some s => item !! "city" = Some (PyStr s)
  | None => item !! "city" = None ∨ item !! "city" = Some PyNone
  end ∧
  item !! "expertiseArea" = Some (PyStr (expertiseArea kol)) ∧
  reads_as lax (item !! "publicationsCount") (publicationsCount kol) ∧
  0 <= publicationsCount kol ∧
  reads_as lax (item !! "hIndex") (hIndex kol) ∧ 0 <= hIndex kol ∧
  reads_as lax (item !! "citations") (citations kol) ∧ 0 <= citations kol.

(** The JSON array of the objects [raw]. *)
Definition array_of (raw : list (gmap string pyval)) : pyval :=
  PyList (PyDict <$> raw).

(** A list of strings in strictly ascending order. *)
Definition strictly_ascending (l : list string) : Prop :=
  ∀ i j a b, (i < j)%nat → l !! i = Some a → l !! j = Some b → String.ltb a b = true.

(** * Properties *)

(** ** Empty record set *)

(** C4: on an empty record set [calculate_statistics] raises the
    [ValueError] that signals the absence of data; it returns no
    statistics, hence no average and no top-ratio record. *)
Theorem calculate_statistics_empty (index : gmap string KOL) :
  let self := {| _kols := []; _kols_by_id := index |} in
  calculate_statistics self =
    Raise (ValueError "No KOL data available for statistics calculation") ∧
  (∀ stats, calculate_statistics self ≠ Ok stats) ∧
  ((∀ lax, _load_data lax (Parsed (PyList [])) = Ok (service_of [])) ∧
   ∀ stats, calculate_statistics (service_of []) ≠ Ok stats).
Proof.
  cbn. repeat split; intros; discriminate.
Qed.

(** ** Search *)

Section Search.
Context (lower : string -> string) (self : KOLService.t).


Lemma filter_always (P : KOL -> Prop) `{!∀ k, Decision (P k)} (l : list KOL) :
  (∀ k, P k) → filter P l = l.
Proof.
  intros HP. induction l as [|k l IH]; [done|].
  rewrite filter_cons_True by done. by rewrite IH.
Qed.

(** Each stage of [search_kols] is the filter of its predicate. *)
Lemma stage_filter {A} (p : option A) (P : A -> KOL -> Prop)
    `{!∀ a k, Decision (P a k)} (l : list KOL) :
  match p with
  | Some a => filter (P a) l
  | None => l
  end = filter (when_supplied p P) l.
Proof.
  destruct p as [a|]; [done|]. symmetry. by apply filter_always.
Qed.

Lemma Zleb_True m n : Is_true (m <=? n) ↔ m <= n.
Proof. by rewrite Is_true_true, Z.leb_le. Qed.

(** [search_kols] keeps, in the order of [_kols], the records which
    satisfy the predicates that are supplied and truthy. *)
Lemma search_kols_truthy q c a mn mx :
  search_kols lower self q c a mn mx =
  filter (satisfies lower (truthy q) (truthy c) (truthy a) mn mx) (_kols self).
Proof.
  unfold search_kols.
  rewrite (stage_filter (truthy q)
    (fun q kol => Is_true (contains (lower q) (lower (name kol)) ||
                           contains (lower q) (lower (affiliation kol))))).
  rewrite (stage_filter (truthy c) (fun c kol => country kol = c)).
  rewrite (stage_filter (truthy a) (fun a kol => expertiseArea kol = a)).
  rewrite (stage_filter mn (fun m kol => m <= hIndex kol)).
  rewrite (stage_filter mx (fun m kol => hIndex kol <= m)).
  rewrite !list_filter_filter.
  apply list_filter_iff. intros kol. unfold satisfies.
  assert (when_supplied (truthy q)
            (fun q kol => Is_true (contains (lower q) (lower (name kol)) ||
                                   contains (lower q) (lower (affiliation kol)))) kol ↔
          when_supplied (truthy q) (text_matches lower) kol) as Htext.
  { destruct (truthy q) as [q'|]; [|done]. cbn. unfold text_matches.
    by rewrite orb_True, !Is_true_true, !contains_spec. }
  tauto.
Qed.
End Search.




(** C9: an empty string given for [query], [country] or [expertise_area]
    behaves as an absent predicate; with all three empty and no bound on
    the h-index the full sequence is returned, so no record is dropped. *)
Theorem search_kols_empty_string (lower : string -> string) (self : KOLService.t)
    q c a mn mx :
  search_kols lower self (Some EmptyString) c a mn mx =
    search_kols lower self None c a mn mx ∧
  search_kols lower self q (Some EmptyString) a mn mx =
    search_kols lower self q None a mn mx ∧
  search_kols lower self q c (Some EmptyString) mn mx =
    search_kols lower self q c None mn mx ∧
  search_kols lower self
    (Some EmptyString) (Some EmptyString) (Some EmptyString) None None =
    get_all_kols self.
Proof. done. Qed.

(** ** Loading and lookup by id *)

Section Index.
Lemma foldl_insert_lookup (kols : list KOL) (d : gmap string KOL) (i : string) :
  foldl (fun d kol => <[id kol := kol]> d) d kols !! i =
  match last (filter (fun k => id k = i) kols) with
  | Some k => Some k
  | None => d !! i
  end.
Proof.
  revert d. induction kols as [|k kols IH]; intros d; [done|].
  cbn [foldl]. rewrite IH, filter_cons.
  destruct (decide (id k = i)) as [<-|Hne].
  - rewrite last_cons. destruct (last _); [done|]. apply lookup_insert_eq.
  - destruct (last _); [done|]. by apply lookup_insert_ne.
Qed.

Lemma index_by_id_lookup (kols : list KOL) (i : string) :
  index_by_id kols !! i = last (filter (fun k => id k = i) kols).
Proof.
  unfold index_by_id. rewrite foldl_insert_lookup, lookup_empty.
  by destruct (last _).
Qed.

Lemma filter_no_match (l : list KOL) (i : string) :
  (∀ k, k ∈ l → id k ≠ i) → filter (fun k => id k = i) l = [].
Proof.
  induction l as [|k l IH]; intros Hl; [done|].
  rewrite filter_cons_False by (apply Hl; left).
  apply IH. intros k' Hk'. apply Hl. by right.
Qed.

Lemma _load_data_inv lax raw_data self :
  _load_data lax (Parsed raw_data) = Ok self →
  (∃ items, iter raw_data = Ok items ∧
            comprehension (KOL_of_item lax) items = Ok (_kols self)) ∧
  _kols_by_id self = index_by_id (_kols self).
Proof.
  cbn. destruct (iter raw_data) as [items|e]; cbn; [|done].
  destruct (comprehension (KOL_of_item lax) items) as [kols|e] eqn:Hkols; cbn; [|done].
  intros [= <-]. split; [|done]. by exists items.
Qed.
End Index.

(** C6: after a successful load, of any document and whatever the lax
    conversion of pydantic is, [get_kol_by_id] returns for an id that
    occurs in the loaded sequence the last record bearing it, and [None]
    for an id that does not occur; [get_all_kols] is the whole sequence of
    validated records, duplicates of an id included. *)
Theorem get_kol_by_id_last_wins lax raw_data self :
  _load_data lax (Parsed raw_data) = Ok self →
  (∀ before kol after,
     get_all_kols self = (before ++ kol :: after)%list →
     (∀ k, k ∈ after → id k ≠ id kol) →
     get_kol_by_id self (id kol) = Some kol) ∧
  (∀ kol_id,
     (∀ k, k ∈ get_all_kols self → id k ≠ kol_id) →
     get_kol_by_id self kol_id = None) ∧
  (∃ items, iter raw_data = Ok items ∧
            comprehension (KOL_of_item lax) items = Ok (get_all_kols self)) ∧
  (∀ raw, raw_data = array_of raw →
          comprehension (KOL_new lax) raw = Ok (get_all_kols self)).
Proof.
  intros Hload. destruct (_load_data_inv _ _ _ Hload) as [Hkols Hidx].
  unfold get_kol_by_id, get_all_kols. rewrite Hidx. split_and!; [| |done|].
  - intros before kol after -> Hafter.
    rewrite index_by_id_lookup, filter_app, filter_cons_True by done.
    rewrite (filter_no_match after) by done. apply last_snoc.
  - intros kol_id Habsent. rewrite index_by_id_lookup.
    by rewrite filter_no_match.
  - intros raw ->. destruct Hkols as (items & Hiter & Hitems).
    injection Hiter as <-. rewrite <-Hitems.
    clear. induction raw as [|item raw IH]; [done|].
    cbn. by rewrite IH.
Qed.

(** Two raw records with the same id. *)
Lemma get_kol_by_id_last_wins_witness :
  let raw := [raw_3_5; <["name" := PyStr "Dr Kim"]> raw_3_5] in
  let lee := sample_7 "Dr Lee" in
  let kim := sample_7 "Dr Kim" in
  _load_data no_lax (Parsed (array_of raw)) = Ok (service_of [lee; kim]) ∧
  get_kol_by_id (service_of [lee; kim]) "7" = Some kim ∧
  get_kol_by_id (service_of [lee; kim]) "8" = None ∧
  comprehension (KOL_new no_lax) raw = Ok [lee; kim].
Proof.
  intros raw lee kim.
  assert (Hload : _load_data no_lax (Parsed (array_of raw)) = Ok (service_of [lee; kim]))
    by (vm_compute; reflexivity).
  destruct (get_kol_by_id_last_wins no_lax _ _ Hload) as (Hlast & Habsent & _ & Hall).
  split_and!; [done| | |by apply Hall].
  - apply (Hlast [lee] kim []); [done|]. intros k Hk. inversion Hk.
  - apply Habsent. intros k Hk.
    repeat (apply elem_of_cons in Hk as [->|Hk]; [discriminate|]). inversion Hk.
Defined.

(** ** Validation of a record *)

(** C2: the validator of [publicationsCount] runs while [hIndex], which
    is declared after it, is not yet among the validated values; a record
    with 3 publications and an h-index of 5 is accepted, whatever the lax
    conversion of pydantic is. *)
Theorem KOL_new_accepts_publications_below_hIndex (lax : pyval -> Z + field_error) :
  KOL_new lax raw_3_5 =
    Ok (sample_7 "Dr Lee") ∧
  validate_publications_vs_hindex 3 {["hIndex" := PyInt 5]} =
    Raise (ValueError "publicationsCount (3) must be >= hIndex (5)").
Proof. split; vm_compute; reflexivity. Qed.


(** ** Sorting and counting *)

Section Sorting.
Context {A : Type} (key : A -> Z).
Implicit Types (l s : list A) (a b x : A).

Lemma before_cons x l a b :
  before (x :: l) a b ↔ (a = x ∧ b ∈ l) ∨ before l a b.
Proof.
  split.
  - intros (i & j & Hij & Hi & Hj). destruct j as [|j]; [lia|].
    destruct i as [|i]; simplify_eq/=.
    + left. split; [done|]. by eapply list_elem_of_lookup_2.
    + right. exists i, j. split_and!; [lia|done..].
  - intros [[-> Hb]|(i & j & Hij & Hi & Hj)].
    + apply list_elem_of_lookup_1 in Hb as [j Hj]. exists 0%nat, (S j).
      split_and!; [lia|done..].
    + exists (S i), (S j). split_and!; [lia|done..].
Qed.

Lemma before_elem_of l a b : before l a b → a ∈ l ∧ b ∈ l.
Proof.
  intros (i & j & _ & Hi & Hj). split; by eapply list_elem_of_lookup_2.
Qed.

Lemma before_take n l a b : before (take n l) a b → before l a b.
Proof.
  intros (i & j & Hij & Hi & Hj). exists i, j.
  apply lookup_take_Some in Hi as [Hi _]. apply lookup_take_Some in Hj as [Hj _].
  done.
Qed.

Lemma insert_desc_perm x s : insert_desc key x s ≡ₚ x :: s.
Proof.
  induction s as [|y s IH]; [done|]. cbn.
  destruct (key x <? key y); [|done].
  rewrite IH. apply perm_swap.
Qed.

Lemma sorted_reverse_perm l : sorted_reverse key l ≡ₚ l.
Proof.
  induction l as [|x l IH]; [done|]. cbn. by rewrite insert_desc_perm, IH.
Qed.

Lemma before_insert_desc x s a b :
  (∀ a b, before s a b → key b <= key a) →
  before (insert_desc key x s) a b →
  (a = x ∧ b ∈ s ∧ key b <= key x) ∨ (b = x ∧ a ∈ s ∧ key x < key a) ∨
  before s a b.
Proof.
  induction s as [|y s IH]; cbn; intros Hsorted.
  - intros Hb. apply before_cons in Hb as [[_ Hb]|Hb].
    + inversion Hb.
    + apply before_elem_of in Hb as [Hb _]. inversion Hb.
  - assert (Htail : ∀ a b, before s a b → key b <= key a).
    { intros a' b' H'. apply Hsorted, before_cons. by right. }
    assert (Hhead : ∀ b, b ∈ s → key b <= key y).
    { intros b' H'. apply Hsorted, before_cons. by left. }
    destruct (key x <? key y) eqn:Hxy.
    + apply Z.ltb_lt in Hxy. intros [[-> Hb]|Hb]%before_cons.
      * apply (elem_of_Permutation_proper _ _ _ (insert_desc_perm x s)) in Hb.
        apply elem_of_cons in Hb as [->|Hb].
        -- right; left. split_and!; [done|left|done].
        -- right; right. apply before_cons. by left.
      * destruct (IH Htail Hb) as [(-> & Hin & Hle)|[(-> & Hin & Hlt)|Hs]].
        -- left. split_and!; [done|by right|done].
        -- right; left. split_and!; [done|by right|done].
        -- right; right. apply before_cons. by right.
    + apply Z.ltb_ge in Hxy. intros [[-> Hb]|Hb]%before_cons.
      * left. split; [done|]. split; [done|].
        apply elem_of_cons in Hb as [->|Hb]; [done|].
        specialize (Hhead _ Hb). lia.
      * by right; right.
Qed.

(** In the sorted list an item comes before another one only if its key
    is greater, or equal and it came first in the input. *)
Lemma before_sorted_reverse l a b :
  before (sorted_reverse key l) a b →
  key b < key a ∨ (key a = key b ∧ before l a b).
Proof.
  revert a b. induction l as [|x l IH]; intros a b; cbn.
  - intros [Ha _]%before_elem_of. inversion Ha.
  - intros H. apply before_insert_desc in H.
    + destruct H as [(-> & Hin & Hle)|[(-> & Hin & Hlt)|Hs]].
      * destruct (decide (key b = key x)) as [Heq|Hne]; [|left; lia].
        right. split; [done|]. apply before_cons. left. split; [done|].
        by rewrite <-(sorted_reverse_perm l).
      * by left.
      * destruct (IH _ _ Hs) as [?|[? ?]]; [by left|].
        right. split; [done|]. apply before_cons. by right.
    + intros a' b' H'. destruct (IH _ _ H') as [?|[? ?]]; lia.
Qed.
End Sorting.

Section Counting.
Implicit Types (l : list string) (c : counter) (x k : string).

Lemma first_index_lt x l i : first_index x l = Some i → (i < length l)%nat.
Proof.
  revert i. induction l as [|y l IH]; intros i; cbn; [done|].
  destruct (decide (y = x)); [intros [= <-]; lia|].
  destruct (first_index x l) as [i'|]; cbn; [|done].
  intros [= <-]. specialize (IH _ eq_refl). lia.
Qed.

Lemma first_index_elem_of x l : x ∈ l → is_Some (first_index x l).
Proof.
  induction l as [|y l IH]; [inversion 1|]. cbn.
  destruct (decide (y = x)); [by eexists|].
  intros [->|Hx]%elem_of_cons; [done|].
  destruct (IH Hx) as [i ->]. by eexists.
Qed.

Lemma first_index_None x l : x ∉ l → first_index x l = None.
Proof.
  induction l as [|y l IH]; [done|]. cbn. intros Hx.
  apply not_elem_of_cons in Hx as [Hne Hx].
  rewrite decide_False by done. by rewrite IH.
Qed.

Lemma first_index_app x l l' :
  first_index x (l ++ l') =
  match first_index x l with
  | Some i => Some i
  | None => (fun j => (length l + j)%nat) <$> first_index x l'
  end.
Proof.
  induction l as [|y l IH]; cbn.
  - by destruct (first_index x l').
  - destruct (decide (y = x)); [done|]. rewrite IH.
    destruct (first_index x l); [done|]. by destruct (first_index x l').
Qed.

Lemma first_encountered_before_app l l' a b :
  first_encountered_before l a b → first_encountered_before (l ++ l') a b.
Proof.
  intros (i & j & Hi & Hj & Hij). exists i, j.
  by rewrite !first_index_app, Hi, Hj.
Qed.

Lemma first_encountered_before_fresh l a x :
  a ∈ l → x ∉ l → first_encountered_before (l ++ [x]) a x.
Proof.
  intros Ha Hx. destruct (first_index_elem_of _ _ Ha) as [i Hi].
  exists i, (length l). rewrite !first_index_app, Hi, first_index_None by done.
  cbn. rewrite decide_True by done. cbn.
  split_and!; [done|f_equal; lia|by eapply first_index_lt].
Qed.

Lemma occurrences_snoc k l x :
  occurrences k (l ++ [x]) = occurrences k l + (if decide (k = x) then 1 else 0).
Proof.
  unfold occurrences. rewrite filter_app, length_app, filter_cons, filter_nil.
  destruct (decide (x = k)) as [->|Hne].
  - rewrite decide_True by done. cbn. lia.
  - rewrite decide_False by done. cbn. lia.
Qed.

Lemma occurrences_absent k l : k ∉ l → occurrences k l = 0.
Proof.
  intros Hk. unfold occurrences.
  replace (filter _ l) with (@nil string); [done|].
  symmetry. induction l as [|y l IH]; [done|].
  apply not_elem_of_cons in Hk as [Hne Hk].
  rewrite filter_cons_False by done. by apply IH.
Qed.

Lemma before_snoc {A} (l : list A) (x a b : A) :
  before (l ++ [x]) a b → before l a b ∨ (b = x ∧ a ∈ l).
Proof.
  intros (i & j & Hij & Hi & Hj).
  destruct (decide (j < length l)%nat) as [Hlt|Hge].
  - left. exists i, j. rewrite lookup_app_l in Hi, Hj by lia. done.
  - right. rewrite lookup_app_r in Hj by lia.
    destruct (j - length l)%nat as [|d] eqn:Hd; [|by destruct d].
    simplify_eq/=. split; [done|].
    rewrite lookup_app_l in Hi by lia. by eapply list_elem_of_lookup_2.
Qed.

(** *** [counter_incr] *)

Lemma counter_incr_fresh x c : x ∉ c.*1 → counter_incr x c = (c ++ [(x, 1)])%list.
Proof.
  induction c as [|[k n] c IH]; [done|]. cbn.
  intros [Hne Hx]%not_elem_of_cons.
  rewrite decide_False by done. by rewrite IH.
Qed.

Lemma counter_incr_keys x c : x ∈ c.*1 → (counter_incr x c).*1 = c.*1.
Proof.
  induction c as [|[k n] c IH]; [inversion 1|]. cbn.
  destruct (decide (k = x)); [done|].
  intros [?|Hx]%elem_of_cons; [done|]. cbn. by rewrite IH.
Qed.

Lemma counter_incr_counts x c (f : string -> Z) :
  NoDup c.*1 →
  Forall (fun e => e.2 = f e.1) c →
  (x ∉ c.*1 → f x = 0) →
  Forall (fun e => e.2 = f e.1 + (if decide (e.1 = x) then 1 else 0))
         (counter_incr x c).
Proof.
  induction c as [|[k n] c IH]; cbn; intros Hnd Hc Hx.
  - constructor; [|done]. cbn. rewrite decide_True by done.
    rewrite Hx; [done|inversion 1].
  - apply NoDup_cons in Hnd as [Hk Hnd]. apply Forall_cons in Hc as [Hn Hc].
    cbn in Hn. destruct (decide (k = x)) as [->|Hne].
    + constructor; cbn; [rewrite decide_True by done; lia|].
      apply Forall_forall. intros e He.
      rewrite Forall_forall in Hc. rewrite (Hc e He).
      rewrite decide_False; [lia|].
      intros <-. apply Hk. apply list_elem_of_fmap. by exists e.
    + constructor; cbn; [rewrite decide_False by done; lia|].
      apply IH; [done..|]. intros Hx'. apply Hx.
      by apply not_elem_of_cons.
Qed.
Lemma foldl_add_acc (a : Z) (zs : list Z) : foldl Z.add a zs = a + sum zs.
Proof.
  unfold sum. revert a. induction zs as [|z zs IH]; intros a; cbn [foldl]; [lia|].
  rewrite (IH (a + z)), (IH (0 + z)). lia.
Qed.

Lemma sum_cons (z : Z) (zs : list Z) : sum (z :: zs) = z + sum zs.
Proof. unfold sum at 1. cbn. apply foldl_add_acc. Qed.

Lemma sum_app (zs zs' : list Z) : sum (zs ++ zs') = sum zs + sum zs'.
Proof.
  induction zs as [|z zs IH]; [done|].
  cbn [app]. rewrite !sum_cons, IH. lia.
Qed.

Lemma sum_perm (zs zs' : list Z) : zs ≡ₚ zs' → sum zs = sum zs'.
Proof.
  induction 1 as [|z zs zs' _ IH|z z' zs|zs zs' zs'' _ IH1 _ IH2];
    rewrite ?sum_cons; [done|lia|lia|congruence].
Qed.

Lemma counter_incr_sum x c : sum (counter_incr x c).*2 = sum c.*2 + 1.
Proof.
  induction c as [|[k n] c IH]; [done|]. cbn [counter_incr].
  destruct (decide (k = x)); rewrite !fmap_cons, !sum_cons; cbn [snd]; [lia|].
  rewrite IH. lia.
Qed.

(** *** [Counter] *)

Lemma Counter_snoc l x : Counter (l ++ [x]) = counter_incr x (Counter l).
Proof. unfold Counter. by rewrite foldl_app. Qed.

Lemma Counter_keys l :
  NoDup (Counter l).*1 ∧ (∀ k, k ∈ (Counter l).*1 ↔ k ∈ l) ∧
  (∀ a b, before (Counter l).*1 a b → first_encountered_before l a b).
Proof.
  induction l as [|x l (Hnd & Hkeys & Hord)] using rev_ind.
  - split_and!; [constructor|done|].
    intros a b [Ha _]%before_elem_of. inversion Ha.
  - rewrite Counter_snoc.
    destruct (decide (x ∈ (Counter l).*1)) as [Hin|Hout].
    + rewrite counter_incr_keys by done. split_and!; [done| |].
      * intros k. rewrite Hkeys, elem_of_app, list_elem_of_singleton.
        split; [by left|]. intros [?| ->]; [done|]. by apply Hkeys.
      * intros a b Hab. by apply first_encountered_before_app, Hord.
    + rewrite counter_incr_fresh, fmap_app by done. cbn. split_and!.
      * apply NoDup_app. split_and!; [done| |apply NoDup_singleton].
        intros k Hk ->%list_elem_of_singleton. done.
      * intros k. rewrite !elem_of_app, Hkeys. done.
      * intros a b [Hab|[-> Ha]]%before_snoc.
        -- by apply first_encountered_before_app, Hord.
        -- apply first_encountered_before_fresh; by rewrite <-Hkeys.
Qed.

Lemma Counter_counts l : Forall (fun e => e.2 = occurrences e.1 l) (Counter l).
Proof.
  induction l as [|x l IH] using rev_ind; [constructor|].
  rewrite Counter_snoc. destruct (Counter_keys l) as (Hnd & Hkeys & _).
  eapply Forall_impl.
  - apply (counter_incr_counts x _ (fun k => occurrences k l)); [done..|].
    intros Hx. apply occurrences_absent. by rewrite <-Hkeys.
  - intros e ->. by rewrite occurrences_snoc.
Qed.

Lemma Counter_sum l : sum (Counter l).*2 = Z.of_nat (length l).
Proof.
  induction l as [|x l IH] using rev_ind; [done|].
  rewrite Counter_snoc, counter_incr_sum, IH, length_app. cbn. lia.
Qed.
End Counting.

(** ** Inversion of the monadic code *)

Section Inversion.
Lemma bind_Ok {A B} (m : result A) (k : A -> result B) (b : B) :
  m ≫= k = Ok b → ∃ a, m = Ok a ∧ k a = Ok b.
Proof. destruct m as [a|e]; [by exists a|done]. Qed.

Lemma comprehension_Forall2 {A B} (f : A -> result B) (l : list A) (out : list B) :
  comprehension f l = Ok out → Forall2 (fun x y => f x = Ok y) l out.
Proof.
  revert out. induction l as [|x l IH]; intros out; cbn.
  - intros [= <-]. constructor.
  - intros (y & Hy & (ys & Hys & [= <-])%bind_Ok)%bind_Ok.
    constructor; [done|]. by apply IH.
Qed.

Lemma percentage_float count total p :
  percentage count total = Ok p → ∃ f, p = Float f.
Proof.
  unfold percentage. intros (q & Hq & Hp)%bind_Ok.
  cbn in Hq. apply bind_Ok in Hq as (f & _ & [= <-]).
  cbn in Hp. injection Hp as <-. by eexists.
Qed.

Lemma CountryDistribution_new_Ok k n p e :
  CountryDistribution.new k n p = Ok e →
  CountryDistribution.country e = k ∧ CountryDistribution.count e = n ∧
  float_type p = Ok (CountryDistribution.percentage e) ∧
  float_ge (CountryDistribution.percentage e) 0 = true ∧
  float_le (CountryDistribution.percentage e) 100 = true.
Proof.
  unfold CountryDistribution.new. intros (f & Hf & He)%bind_Ok.
  repeat case_match; simplify_eq. cbn.
  split_and!; [done..| |]; by apply negb_false_iff.
Qed.

Lemma ExpertiseDistribution_new_Ok k n p e :
  ExpertiseDistribution.new k n p = Ok e →
  ExpertiseDistribution.expertiseArea e = k ∧ ExpertiseDistribution.count e = n ∧
  float_type p = Ok (ExpertiseDistribution.percentage e).
Proof.
  unfold ExpertiseDistribution.new. intros (f & Hf & He)%bind_Ok.
  repeat case_match; simplify_eq. done.
Qed.

(** The entries of [top_countries] are, position by position, the
    items of [most_common 10]. *)
Lemma top_countries_Ok kols out :
  top_countries kols = Ok out →
  Forall2 (fun item e =>
             CountryDistribution.country e = item.1 ∧
             CountryDistribution.count e = item.2 ∧
             (percentage item.2 (Z.of_nat (length kols)) =
                Ok (Float (CountryDistribution.percentage e)) ∧
              float_ge (CountryDistribution.percentage e) 0 = true ∧
              float_le (CountryDistribution.percentage e) 100 = true))
          (most_common 10 (Counter (country <$> kols))) out.
Proof.
  intros H%comprehension_Forall2. eapply Forall2_impl; [exact H|].
  intros [k n] e (p & Hp & He)%bind_Ok. cbn.
  apply CountryDistribution_new_Ok in He as (? & ? & Hf & ? & ?).
  destruct (percentage_float _ _ _ Hp) as [f ->]. cbn in Hf. by simplify_eq.
Qed.

Lemma expertise_distribution_Ok kols out :
  expertise_distribution kols = Ok out →
  Forall2 (fun item e =>
             ExpertiseDistribution.expertiseArea e = item.1 ∧
             ExpertiseDistribution.count e = item.2 ∧
             percentage item.2 (Z.of_nat (length kols)) =
               Ok (Float (ExpertiseDistribution.percentage e)))
          (sorted_reverse snd (Counter (expertiseArea <$> kols))) out.
Proof.
  intros H%comprehension_Forall2. eapply Forall2_impl; [exact H|].
  intros [k n] e (p & Hp & He)%bind_Ok. cbn.
  apply ExpertiseDistribution_new_Ok in He as (? & ? & Hf).
  destruct (percentage_float _ _ _ Hp) as [f ->]. cbn in Hf. by simplify_eq.
Qed.

Lemma aggregates_Ok kols l :
  aggregates kols = Ok l →
  avg_citations_per_pub kols = Ok (avg_citations l) ∧
  top_countries kols = Ok (countries l) ∧
  expertise_distribution kols = Ok (expertise l) ∧
  kol_with_ratios kols = Ok (ratios l) ∧
  total_kols l = Z.of_nat (length kols).
Proof.
  unfold aggregates.
  intros (h & _ & (a & Ha & (t & Ht & (d & Hd & (r & Hr & [= <-])%bind_Ok)
    %bind_Ok)%bind_Ok)%bind_Ok)%bind_Ok.
  done.
Qed.

Lemma KOLStats_new_Ok n p c h a top dist best stats :
  KOLStats.new n p c h a top dist best = Ok stats →
  KOLStats.totalKOLs stats = n ∧
  KOLStats.topCountries stats = top ∧ (length top <= 10)%nat ∧
  KOLStats.expertiseDistribution stats = dist ∧
  KOLStats.topCitationRatioKOL stats = best.
Proof.
  unfold KOLStats.new. intros (fh & _ & (fa & _ & H)%bind_Ok)%bind_Ok.
  repeat case_match; simplify_eq. cbn. split_and!; try done.
  apply Nat.ltb_ge. done.
Qed.

Lemma calculate_statistics_Ok self stats :
  calculate_statistics self = Ok stats →
  _kols self ≠ [] ∧
  ∃ l, aggregates (_kols self) = Ok l ∧
       top_citation_ratio_kol l = Ok (KOLStats.topCitationRatioKOL stats) ∧
       KOLStats.totalKOLs stats = Z.of_nat (length (_kols self)) ∧
       KOLStats.topCountries stats = countries l ∧
       (length (countries l) <= 10)%nat ∧
       KOLStats.expertiseDistribution stats = expertise l.
Proof.
  unfold calculate_statistics. destruct (_kols self) as [|k kols] eqn:Hk; [done|].
  intros (l & Hl & (top & Htop & (h & _ & (a & _ & H)%bind_Ok)%bind_Ok)
    %bind_Ok)%bind_Ok.
  split; [done|]. exists l.
  apply KOLStats_new_Ok in H as (Hn & -> & Hlen & -> & ->).
  destruct (aggregates_Ok _ _ Hl) as (_ & _ & _ & _ & Htot).
  split_and!; try done. by rewrite Hn, Htot.
Qed.
End Inversion.

(** ** Distributions *)

Section Distributions.
Lemma before_fmap {A B} (f : A -> B) (l : list A) (a b : A) :
  before l a b → before (f <$> l) (f a) (f b).
Proof.
  intros (i & j & Hij & Hi & Hj). exists i, j.
  rewrite !list_lookup_fmap, Hi, Hj. done.
Qed.

(** Order of the items handed to the two list comprehensions. *)
Lemma before_sorted_counter labels items a b :
  (∀ a b, before items a b → before (sorted_reverse snd (Counter labels)) a b) →
  before items a b →
  b.2 <= a.2 ∧ (a.2 = b.2 → first_encountered_before labels a.1 b.1).
Proof.
  intros Hitems Hab%Hitems.
  apply before_sorted_reverse in Hab as [Hlt|[Heq Hab]]; [lia|].
  split; [lia|]. intros _.
  apply (Counter_keys labels), (before_fmap fst), Hab.
Qed.

Lemma before_Forall2 {A B} (R : A -> B -> Prop) (l : list A) (out : list B) i j e1 e2 :
  Forall2 R l out → (i < j)%nat → out !! i = Some e1 → out !! j = Some e2 →
  ∃ a b, before l a b ∧ R a e1 ∧ R b e2.
Proof.
  intros HR Hij Hi Hj.
  destruct (Forall2_lookup_r _ _ _ _ _ HR Hi) as (a & Ha & Ra).
  destruct (Forall2_lookup_r _ _ _ _ _ HR Hj) as (b & Hb & Rb).
  exists a, b. split; [by exists i, j|done].
Qed.
End Distributions.

(** C7: in the statistics of a record set, [topCountries] and
    [expertiseDistribution] are in descending order of count, entries of
    equal count are in the order in which their labels are first
    encountered in the record set, and [expertiseDistribution] has an
    entry for the expertise area of every record. *)
Theorem distributions_ordered (self : KOLService.t) (stats : KOLStats.t) :
  calculate_statistics self = Ok stats →
  ordered_by_count CountryDistribution.count CountryDistribution.country
    (country <$> _kols self) (KOLStats.topCountries stats) ∧
  ordered_by_count ExpertiseDistribution.count ExpertiseDistribution.expertiseArea
    (expertiseArea <$> _kols self) (KOLStats.expertiseDistribution stats) ∧
  (∀ kol, kol ∈ _kols self →
     ∃ e, e ∈ KOLStats.expertiseDistribution stats ∧
          ExpertiseDistribution.expertiseArea e = expertiseArea kol).
Proof.
  intros (_ & l & Hl & _ & _ & -> & _ & ->)%calculate_statistics_Ok.
  apply aggregates_Ok in Hl as (_ & Htop%top_countries_Ok &
    Hdist%expertise_distribution_Ok & _).
  split_and!.
  - intros i j e1 e2 Hij Hi Hj.
    destruct (before_Forall2 _ _ _ _ _ _ _ Htop Hij Hi Hj)
      as (a & b & Hab & (-> & -> & _) & (-> & -> & _)).
    eapply before_sorted_counter; [|exact Hab].
    intros a' b'. apply before_take.
  - intros i j e1 e2 Hij Hi Hj.
    destruct (before_Forall2 _ _ _ _ _ _ _ Hdist Hij Hi Hj)
      as (a & b & Hab & (-> & -> & _) & (-> & -> & _)).
    eapply before_sorted_counter; [|exact Hab]. done.
  - intros kol Hkol.
    assert (Harea : expertiseArea kol ∈ (Counter (expertiseArea <$> _kols self)).*1).
    { apply Counter_keys, list_elem_of_fmap. by exists kol. }
    apply list_elem_of_fmap in Harea as (item & Hitem & Hin).
    rewrite <-(sorted_reverse_perm snd) in Hin.
    apply list_elem_of_lookup_1 in Hin as [i Hi].
    destruct (Forall2_lookup_l _ _ _ _ _ Hdist Hi) as (e & He & Harea & _).
    exists e. split; [by eapply list_elem_of_lookup_2|congruence].
Qed.

Lemma distributions_ordered_witness :
  ∃ stats, calculate_statistics fixture = Ok stats ∧
    ordered_by_count CountryDistribution.count CountryDistribution.country
      ["France"; "Japan"; "France"] (KOLStats.topCountries stats) ∧
    ordered_by_count ExpertiseDistribution.count ExpertiseDistribution.expertiseArea
      ["Vitiligo"; "Psoriasis"; "Dermatology"] (KOLStats.expertiseDistribution stats) ∧
    (∀ kol, kol ∈ _kols fixture →
       ∃ e, e ∈ KOLStats.expertiseDistribution stats ∧
            ExpertiseDistribution.expertiseArea e = expertiseArea kol).
Proof.
  eexists. split; [vm_compute; reflexivity|].
  apply (distributions_ordered fixture). vm_compute. reflexivity.
Defined.

Section Percentages.
Lemma Qsum_exact_percentage (total : Z) (counts : list Z) :
  (Qsum (exact_percentage total <$> counts) == exact_percentage total (sum counts))%Q.
Proof.
  induction counts as [|c counts IH]; [done|].
  cbn [fmap list_fmap Qsum foldr]. fold (Qsum (exact_percentage total <$> counts)).
  rewrite IH, sum_cons. unfold exact_percentage, Qeq, Qplus. cbn. nia.
Qed.

Lemma sum_nonneg (zs : list Z) : Forall (fun z => 0 <= z) zs → 0 <= sum zs.
Proof.
  induction 1 as [|z zs Hz _ IH]; [done|]. rewrite sum_cons. lia.
Qed.

Lemma sum_take_le (n : nat) (zs : list Z) :
  Forall (fun z => 0 <= z) zs → sum (take n zs) <= sum zs.
Proof.
  intros Hzs. rewrite <-(take_drop n zs) at 2. rewrite sum_app.
  assert (0 <= sum (drop n zs)); [|lia].
  apply sum_nonneg, Forall_drop, Hzs.
Qed.

Lemma occurrences_nonneg x l : 0 <= occurrences x l.
Proof. unfold occurrences. lia. Qed.

Lemma Counter_nonneg l : Forall (fun z => 0 <= z) (Counter l).*2.
Proof.
  apply Forall_fmap. eapply Forall_impl; [apply Counter_counts|].
  intros e He. cbn. rewrite He. apply occurrences_nonneg.
Qed.

(** Labels and counts of the entries are those of the items. *)
Lemma Forall2_labels_counts {E} (label : E -> string) (count : E -> Z)
    (R : string * Z -> E -> Prop) (items : counter) (out : list E) :
  Forall2 (fun item e => label e = item.1 ∧ count e = item.2 ∧ R item e) items out →
  label <$> out = items.*1 ∧ count <$> out = items.*2.
Proof.
  induction 1 as [|item e items out (Hl & Hc & _) _ [IH1 IH2]]; [done|].
  cbn. by rewrite Hl, Hc, IH1, IH2.
Qed.
End Percentages.

(** ** Floats: rounding to nearest adds at most one unit in the last place *)

Section Shifts.
Lemma shr_1_div2 mrs : 0 <= shr_m mrs -> shr_m (shr_1 mrs) = shr_m mrs / 2.
Proof.
  destruct mrs as [[|[p|p|]|p] r s]; cbn [shr_1 shr_m]; intros; try done; try lia.
  - apply Z.div_unique with 1; lia.
  - apply Z.div_unique with 0; lia.
Qed.

Lemma pow2_xI p : 2 ^ Z.pos p~1 = 2 * (2 ^ Z.pos p * 2 ^ Z.pos p).
Proof.
  assert (Z.pos p~1 = 1 + (Z.pos p + Z.pos p)) as -> by lia.
  rewrite Z.pow_add_r, Z.pow_add_r, Z.pow_1_r by lia. done.
Qed.

Lemma pow2_xO p : 2 ^ Z.pos p~0 = 2 ^ Z.pos p * 2 ^ Z.pos p.
Proof.
  assert (Z.pos p~0 = Z.pos p + Z.pos p) as -> by lia.
  by rewrite Z.pow_add_r by lia.
Qed.

Lemma pow2_pos k : 0 <= k -> 0 < 2 ^ k.
Proof. intros. by apply Z.pow_pos_nonneg. Qed.

Lemma iter_shr_1_div p mrs :
  0 <= shr_m mrs ->
  shr_m (SpecFloat.iter_pos shr_1 p mrs) = shr_m mrs / 2 ^ Z.pos p.
Proof.
  pose proof (pow2_pos (Z.pos p) ltac:(lia)) as Hpos.
  revert mrs. induction p as [p IH|p IH|]; intros mrs Hm; cbn [SpecFloat.iter_pos].
  - pose proof (pow2_pos (Z.pos p) ltac:(lia)) as Hp.
    assert (0 <= shr_m (shr_1 mrs)) by (rewrite shr_1_div2 by done; apply Z.div_pos; lia).
    assert (0 <= shr_m (SpecFloat.iter_pos shr_1 p (shr_1 mrs))).
    { rewrite IH by done. apply Z.div_pos; lia. }
    rewrite IH, IH, shr_1_div2, pow2_xI by done.
    rewrite !Z.div_div by lia. done.
  - pose proof (pow2_pos (Z.pos p) ltac:(lia)) as Hp.
    assert (0 <= shr_m (SpecFloat.iter_pos shr_1 p mrs)).
    { rewrite IH by done. apply Z.div_pos; lia. }
    rewrite IH, IH, pow2_xO by done. rewrite !Z.div_div by lia. done.
  - rewrite shr_1_div2 by done. done.
Qed.

Lemma digits2_pos_bounds p :
  2 ^ (Z.pos (digits2_pos p) - 1) <= Z.pos p < 2 ^ Z.pos (digits2_pos p).
Proof.
  induction p as [p IH|p IH|]; cbn [digits2_pos]; [| |cbn; lia].
  - rewrite Pos2Z.inj_succ.
    assert (Z.succ (Z.pos (digits2_pos p)) - 1 = Z.succ (Z.pos (digits2_pos p) - 1)) as -> by lia.
    rewrite !Z.pow_succ_r by lia. lia.
  - rewrite Pos2Z.inj_succ.
    assert (Z.succ (Z.pos (digits2_pos p)) - 1 = Z.succ (Z.pos (digits2_pos p) - 1)) as -> by lia.
    rewrite !Z.pow_succ_r by lia. lia.
Qed.
End Shifts.

Section RoundingError.
Local Open Scope Q_scope.

Lemma pow2_Q_pos e : 0 < 2 ^ e.
Proof. by apply Qpower_0_lt. Qed.

Lemma val_mono m m' e : (m <= m')%Z -> val m e <= val m' e.
Proof.
  intros H. unfold val. apply Qmult_le_compat_r.
  - by rewrite <-Zle_Qle.
  - apply Qlt_le_weak, pow2_Q_pos.
Qed.

Lemma val_succ m e : val (m + 1) e == val m e + 2 ^ e.
Proof. unfold val. rewrite inject_Z_plus. ring. Qed.

Lemma val_shift k m e :
  (0 <= k)%Z -> (0 <= m)%Z -> val (m / 2 ^ k) (e + k) <= val m e.
Proof.
  intros Hk Hm. unfold val.
  rewrite Qpower_plus by done.
  rewrite <-(Zpower_Qpower 2 k) by done.
  rewrite (Qmult_comm (2 ^ e)), Qmult_assoc, <-inject_Z_mult.
  apply Qmult_le_compat_r; [|apply Qlt_le_weak, pow2_Q_pos].
  rewrite <-Zle_Qle. rewrite Z.mul_comm. apply Z.mul_div_le.
  by apply Z.pow_pos_nonneg.
Qed.

Lemma loc_of_shr_record_of_loc m l : loc_of_shr_record (shr_record_of_loc m l) = l.
Proof. by destruct l as [|[]]. Qed.

Lemma shr_m_of_loc m l : shr_m (shr_record_of_loc m l) = m.
Proof. by destruct l as [|[]]. Qed.

Lemma val_nonneg m e : (0 <= m)%Z -> 0 <= val m e.
Proof.
  intros. unfold val. apply Qmult_le_0_compat.
  - by rewrite <-(Zle_Qle 0).
  - apply Qlt_le_weak, pow2_Q_pos.
Qed.

(** One unit in the last place is small with respect to a mantissa of 53 bits. *)
Lemma unit_small m e : (2 ^ 52 <= m)%Z -> 2 ^ e <= ulp_rel * val m e.
Proof.
  intros Hm. unfold ulp_rel, val.
  assert (1 <= 2 ^ (-52) * inject_Z m) as H.
  { assert (1 == 2 ^ (-52) * inject_Z (2 ^ 52)) as -> by (by vm_compute).
    apply Qmult_le_l; [apply pow2_Q_pos|]. by rewrite <-Zle_Qle. }
  rewrite Qmult_assoc.
  rewrite <-(Qmult_1_l (2 ^ e)) at 1.
  apply Qmult_le_compat_r; [done|apply Qlt_le_weak, pow2_Q_pos].
Qed.

Lemma shr_fexp_value m e l :
  (0 <= m)%Z ->
  let r := shr_fexp prec emax m e l in
  (0 <= shr_m r.1)%Z ∧ val (shr_m r.1) r.2 <= val m e ∧
  ((2 ^ 52 <= shr_m r.1)%Z ∨ r.2 = (-1074)%Z ∨
   (shr_m r.1 = m ∧ r.2 = e ∧ loc_of_shr_record r.1 = l)).
Proof.
  intros Hm. unfold shr_fexp, shr.
  destruct (fexp prec emax (Zdigits2 m + e) - e)%Z as [|p|p] eqn:Hn; cbn zeta.
  1, 3: cbn [fst snd]; rewrite shr_m_of_loc, loc_of_shr_record_of_loc;
    split_and!; [done|apply Qle_refl|by right; right].
  cbn [fst snd].
  rewrite iter_shr_1_div by (by rewrite shr_m_of_loc). rewrite shr_m_of_loc.
  pose proof (pow2_pos (Z.pos p) ltac:(lia)) as Hpos.
  split_and!.
  - apply Z.div_pos; lia.
  - apply val_shift; lia.
  - unfold fexp, SpecFloat.emin, prec, emax in Hn.
    destruct (decide (e + Z.pos p = -1074)%Z) as [?|Hne]; [by right; left|].
    left. destruct m as [|q|q]; [cbn in Hn; lia| |lia].
    cbn [Zdigits2] in Hn. pose proof (digits2_pos_bounds q) as [Hlo _].
    assert (Z.pos (digits2_pos q) - 1 = Z.pos p + 52)%Z as Hd by lia.
    rewrite Hd, Z.pow_add_r in Hlo by lia.
    apply Z.div_le_lower_bound; lia.
Qed.

Lemma round_nearest_even_bounds m l :
  (0 <= m)%Z ->
  (0 <= round_nearest_even m l <= m + 1)%Z ∧
  (l = loc_Exact -> round_nearest_even m l = m).
Proof.
  intros Hm. destruct l as [|[]]; cbn; try (split; [lia|done]).
  destruct (Z.even m); (split; [lia|done]).
Qed.

Lemma tiny_pos : 0 < tiny.
Proof. apply pow2_Q_pos. Qed.

Lemma ulp_rel_pos : 0 < ulp_rel.
Proof. apply pow2_Q_pos. Qed.

(** What one unit of the last place weighs, for a mantissa that is either
    of full width or at the smallest exponent. *)
Lemma unit_bound m e V :
  (0 <= m)%Z -> val m e <= V ->
  (2 ^ 52 <= m)%Z ∨ e = (-1074)%Z ->
  2 ^ e <= ulp_rel * V + tiny.
Proof.
  intros Hm HV [Hfull| ->].
  - pose proof (unit_small m e Hfull) as Hu.
    assert (ulp_rel * val m e <= ulp_rel * V) as Hmono.
    { apply Qmult_le_l; [apply ulp_rel_pos|done]. }
    pose proof tiny_pos. lra.
  - pose proof (val_nonneg m (-1074) Hm) as H0.
    assert (0 <= ulp_rel * V) as HuV.
    { apply Qmult_le_0_compat; [apply Qlt_le_weak, ulp_rel_pos|lra]. }
    unfold tiny. lra.
Qed.

Lemma float_Q_zero s : float_Q (S754_zero s) = 0.
Proof. done. Qed.

Lemma float_Q_infinity s : float_Q (S754_infinity s) = 0.
Proof. by destruct s. Qed.

Lemma float_Q_nan : float_Q S754_nan = 0.
Proof. done. Qed.

Lemma float_Q_finite p e : float_Q (S754_finite false p e) = val (Z.pos p) e.
Proof. done. Qed.

Lemma binary_round_aux_upper m e l V :
  (0 <= m)%Z ->
  (l ≠ loc_Exact -> (2 ^ 52 <= m)%Z ∨ e = (-1074)%Z) ->
  val m e <= V ->
  float_Q (binary_round_aux prec emax false m e l) <= V * (1 + ulp_rel) + tiny.
Proof.
  intros Hm Hcond HV. unfold binary_round_aux.
  pose proof (shr_fexp_value m e l Hm) as (Hk & Hvk & Hck). cbn zeta in *.
  destruct (shr_fexp prec emax m e l) as [mrs' e']. cbn [fst snd] in *.
  set (mk := shr_m mrs') in *. set (lk := loc_of_shr_record mrs') in *.
  destruct (round_nearest_even_bounds mk lk Hk) as [[Hr0 Hr1] Hrx].
  set (m' := round_nearest_even mk lk) in *.
  pose proof (shr_fexp_value m' e' loc_Exact Hr0) as (Hk2 & Hvk2 & _). cbn zeta in *.
  destruct (shr_fexp prec emax m' e' loc_Exact) as [mrs'' e'']. cbn [fst snd] in *.
  pose proof (val_nonneg m e Hm) as HV0.
  assert (0 <= ulp_rel * V) as HuV.
  { apply Qmult_le_0_compat; [apply Qlt_le_weak, ulp_rel_pos|lra]. }
  pose proof tiny_pos as Ht.
  assert (val m' e' <= V * (1 + ulp_rel) + tiny) as Hbound.
  { assert (lk = loc_Exact ∨ lk ≠ loc_Exact) as [Hx|Hx]
      by (destruct lk; [by left|by right]).
    - rewrite (Hrx Hx). lra.
    - pose proof (val_mono m' (mk + 1) e' Hr1) as Hm1. rewrite val_succ in Hm1.
      assert (2 ^ e' <= ulp_rel * V + tiny) as Hunit; [|lra].
      destruct Hck as [Hfull|[He|(Hm_eq & He_eq & Hl_eq)]].
      + apply (unit_bound mk); [done|lra|by left].
      + apply (unit_bound mk); [done|lra|by right].
      + rewrite He_eq. apply (unit_bound m); [done|done|].
        apply Hcond. by rewrite <-Hl_eq. }
  assert (0 <= V * (1 + ulp_rel) + tiny) as Hrhs by lra.
  destruct (shr_m mrs'') as [|p|p] eqn:Hm''.
  - by rewrite float_Q_zero.
  - destruct (e'' <=? emax - prec)%Z.
    + rewrite float_Q_finite. lra.
    + by rewrite float_Q_infinity.
  - by rewrite float_Q_nan.
Qed.
End RoundingError.

Section Entries.
Lemma sorted_counter_counts labels :
  Forall (fun item => item.2 = occurrences item.1 labels)
         (sorted_reverse snd (Counter labels)).
Proof. rewrite sorted_reverse_perm. apply Counter_counts. Qed.

Lemma sorted_counter_sum labels :
  sum (sorted_reverse snd (Counter labels)).*2 = Z.of_nat (length labels).
Proof.
  rewrite <-Counter_sum. apply sum_perm, fmap_Permutation, sorted_reverse_perm.
Qed.

Lemma exact_percentage_le total s :
  0 < total → s <= total → (exact_percentage total s <= 100)%Q.
Proof.
  intros Hpos Hle. unfold exact_percentage, Qle. cbn.
  rewrite Z2Pos.id by done. lia.
Qed.

Lemma exact_percentage_all total : 0 < total → (exact_percentage total total == 100)%Q.
Proof.
  intros Hpos. unfold exact_percentage, Qeq. cbn.
  rewrite Z2Pos.id by done. lia.
Qed.

Lemma length_pos (kols : list KOL) : kols ≠ [] → 0 < Z.of_nat (length kols).
Proof. destruct kols; [done|]. cbn. lia. Qed.
End Entries.

(** ** Floats: a quotient of integers is never a NaN *)

Section FloatFacts.
Lemma iter_pos_invariant {A} (f : A -> A) (P : A -> Prop) :
  (∀ a, P a → P (f a)) → ∀ n a, P a → P (SpecFloat.iter_pos f n a).
Proof.
  intros Hf. induction n as [n IH|n IH|]; intros a Ha; cbn; auto.
Qed.

Lemma shr_1_nonneg mrs : 0 <= shr_m mrs → 0 <= shr_m (shr_1 mrs).
Proof. destruct mrs as [[|[p|p|]|p] r s]; cbn; lia. Qed.

Lemma shr_nonneg mrs e n : 0 <= shr_m mrs → 0 <= shr_m (shr mrs e n).1.
Proof.
  intros Hm. destruct n as [|p|p]; cbn; [done| |done].
  by apply (iter_pos_invariant shr_1 (fun mrs => 0 <= shr_m mrs)), Hm;
    apply shr_1_nonneg.
Qed.

Lemma shr_fexp_nonneg m e l : 0 <= m → 0 <= shr_m (shr_fexp prec emax m e l).1.
Proof.
  intros Hm. unfold shr_fexp. apply shr_nonneg.
  by destruct l as [|[]].
Qed.

Lemma round_nearest_even_nonneg m l : 0 <= m → 0 <= round_nearest_even m l.
Proof.
  intros Hm. destruct l as [|[]]; cbn; try lia. destruct (Z.even m); lia.
Qed.

Lemma binary_round_aux_not_nan s m e l :
  0 <= m → binary_round_aux prec emax s m e l ≠ S754_nan.
Proof.
  intros Hm. unfold binary_round_aux.
  pose proof (shr_fexp_nonneg m e l Hm) as H1.
  destruct (shr_fexp prec emax m e l) as [mrs' e']. cbn in H1.
  pose proof (shr_fexp_nonneg _ e' loc_Exact
                (round_nearest_even_nonneg _ (loc_of_shr_record mrs') H1)) as H2.
  destruct (shr_fexp prec emax _ e' loc_Exact) as [mrs'' e'']. cbn in H2.
  destruct (shr_m mrs''); [done| |lia]. by case_match.
Qed.

Lemma SFdiv_core_binary_nonneg m1 e1 m2 e2 :
  0 <= m1 → 0 < m2 → 0 <= (SFdiv_core_binary prec emax m1 e1 m2 e2).1.1.
Proof.
  intros H1 H2. unfold SFdiv_core_binary.
  set (s := _ - _ - _). set (m' := match s with 0 => _ | _ => _ end).
  assert (0 <= m') as Hm'.
  { unfold m'. destruct s; [done| |done]. by apply Z.shiftl_nonneg. }
  unfold Z.div_eucl. pose proof (Z.div_pos m' m2 Hm' H2) as Hq.
  unfold Z.div, Z.div_eucl in Hq. by destruct m', m2; try destruct Z.pos_div_eucl.
Qed.
End FloatFacts.

Section NotNaN.
Lemma int_true_div_not_nan a b f : int_true_div a b = Ok f → f ≠ S754_nan.
Proof.
  unfold int_true_div. destruct (b =? 0) eqn:Hb; [done|].
  apply Z.eqb_neq in Hb. intros Hf Hnan.
  assert (SFdiv prec emax (Z2SF a) (Z2SF b) = S754_nan) as Hdiv.
  { destruct (SFdiv prec emax (Z2SF a) (Z2SF b)); by simplify_eq. }
  clear Hf. destruct a as [|pa|pa], b as [|pb|pb]; try done; cbn [Z2SF SFdiv] in Hdiv.
  all: pose proof (SFdiv_core_binary_nonneg (Z.pos pa) 0 (Z.pos pb) 0) as Hq;
    destruct (SFdiv_core_binary prec emax (Z.pos pa) 0 (Z.pos pb) 0) as [[mz ez] lz];
    cbn in Hq; by eapply binary_round_aux_not_nan; [apply Hq|exact Hdiv].
Qed.

Lemma citation_ratio_not_nan kol r : citation_ratio kol = Ok r → num_val r ≠ XNaN.
Proof.
  unfold citation_ratio. destruct (publicationsCount kol >? 0).
  - cbn. intros (f & Hf%int_true_div_not_nan & [= <-])%bind_Ok.
    cbn. by destruct f as [| [] | |[]].
  - by intros [= <-].
Qed.
End NotNaN.

(** ** The order of numbers *)

Section Order.
Implicit Types (x y z : xval) (a b c : num).

Lemma Qltb_lt (p q : Q) : Qltb p q = true ↔ (p < q)%Q.
Proof. unfold Qltb. rewrite Qlt_alt. by destruct (p ?= q)%Q. Qed.

Lemma xval_ltb_trans x y z :
  xval_ltb x y = true → xval_ltb y z = true → xval_ltb x z = true.
Proof.
  destruct x, y, z; cbn; try done.
  rewrite !Qltb_lt. apply Qlt_trans.
Qed.

Lemma xval_ltb_asym x y : xval_ltb x y = true → xval_ltb y x = false.
Proof.
  destruct x, y; cbn; try done.
  rewrite Qltb_lt. intros Hlt. apply not_true_is_false. rewrite Qltb_lt.
  intros Hgt. by apply (Qlt_irrefl q), (Qlt_trans _ q0).
Qed.

(** [y <= x] and [x < z] give [y < z]. *)
Lemma xval_le_ltb_trans x y z :
  y ≠ XNaN → xval_ltb x y = false → xval_ltb x z = true → xval_ltb y z = true.
Proof.
  destruct x, y, z; cbn; try done.
  intros _ Hxy%not_true_iff_false. rewrite Qltb_lt in Hxy. rewrite !Qltb_lt.
  intros Hxz. apply Qnot_lt_le in Hxy. by eapply Qle_lt_trans.
Qed.

Lemma gt_trans a b c : gt a b = true → gt b c = true → gt a c = true.
Proof. unfold gt. intros ??. by eapply xval_ltb_trans. Qed.

Lemma gt_asym a b : gt a b = true → gt b a = false.
Proof. unfold gt. apply xval_ltb_asym. Qed.

Lemma not_gt_trans a b c :
  num_val b ≠ XNaN → gt b a = false → gt c a = true → gt c b = true.
Proof. unfold gt. apply xval_le_ltb_trans. Qed.
End Order.

(** ** The record of the highest citation ratio *)

Section MaxScan.
Context {A : Type} (key : A -> num).

(** The scan returns the first item of maximal key: its key is greater
    than the key of every item before it, and no later item has a
    greater key. *)
Lemma max_scan_first_max (best : A) (l : list A) :
  Forall (fun x => num_val (key x) ≠ XNaN) (best :: l) →
  ∃ pre post,
    best :: l = (pre ++ max_scan key best l :: post)%list ∧
    Forall (fun x => gt (key (max_scan key best l)) (key x) = true) pre ∧
    Forall (fun x => gt (key x) (key (max_scan key best l)) = false) post.
Proof.
  revert best. induction l as [|x l IH]; intros best Hnan.
  - exists [], []. by split_and!.
  - cbn [max_scan]. apply Forall_cons in Hnan as [Hbest Hnan].
    apply Forall_cons in Hnan as [Hx Hnan].
    destruct (gt (key x) (key best)) eqn:Hgt.
    + destruct (IH x) as (pre & post & Heq & Hpre & Hpost); [by constructor|].
      set (m := max_scan key x l) in *.
      destruct pre as [|x' pre]; injection Heq as Hm Hl.
      * exists [best], post. split_and!; [by rewrite <-Hm, Hl| |done].
        repeat constructor. by rewrite <-Hm.
      * exists (best :: x' :: pre), post.
        apply Forall_cons in Hpre as [Hx' Hpre].
        split_and!; [by rewrite <-Hm, Hl| |done].
        repeat constructor; [|done..]. eapply gt_trans; [exact Hx'|].
        by rewrite <-Hm.
    + destruct (IH best) as (pre & post & Heq & Hpre & Hpost); [by constructor|].
      set (m := max_scan key best l) in *.
      destruct pre as [|b' pre]; injection Heq as Hm Hl.
      * exists [], (x :: post). split_and!; [by rewrite <-Hm, Hl|done|].
        constructor; [by rewrite <-Hm|done].
      * exists (b' :: x :: pre), post.
        apply Forall_cons in Hpre as [Hb' Hpre].
        split_and!; [by rewrite <-Hm, Hl| |done].
        repeat constructor; [done| |done].
        eapply not_gt_trans; [done|exact Hgt|]. by rewrite Hm.
Qed.
End MaxScan.

Section TopRatio.
Lemma kol_with_ratios_Ok kols pairs :
  kol_with_ratios kols = Ok pairs →
  kols = pairs.*1 ∧ Forall (fun p => citation_ratio p.1 = Ok p.2) pairs.
Proof.
  intros H%comprehension_Forall2.
  induction H as [|kol p kols pairs (r & Hr & [= <-])%bind_Ok _ [IH1 IH2]]; [done|].
  cbn. split; [by rewrite IH1|]. by constructor.
Qed.

Lemma top_citation_ratio_kol_Ok l top :
  top_citation_ratio_kol l = Ok top →
  ∃ top_ratio,
    max snd (ratios l) = Ok (TopCitationRatioKOL.kol top, top_ratio) ∧
    round top_ratio 2 ≫= float_type = Ok (TopCitationRatioKOL.ratio top).
Proof.
  unfold top_citation_ratio_kol. intros ([top_kol top_ratio] & Hmax & H)%bind_Ok.
  apply bind_Ok in H as (above & _ & (relative & _ & (pct & _ &
    (ratio & Hratio & (rounded & _ & H)%bind_Ok)%bind_Ok)%bind_Ok)%bind_Ok).
  unfold TopCitationRatioKOL.new in H.
  apply bind_Ok in H as (r & Hr & (p & _ & H)%bind_Ok).
  case_match; simplify_eq. cbn. exists top_ratio. split; [done|].
  by rewrite Hratio.
Qed.
End TopRatio.

(** C1: a record has the ratio [citations / publicationsCount] when it
    has publications and 0 otherwise; [topCitationRatioKOL] holds the
    first record of maximal ratio: every record before it has a smaller
    ratio and no record after it has a greater one. On the fixture the
    three ratios are 10.0 and the first record is selected. *)
Theorem top_citation_ratio_first_max :
  (∀ kol,
     citation_ratio kol =
       if publicationsCount kol >? 0
       then div (Int (citations kol)) (Int (publicationsCount kol))
       else Ok (Int 0)) ∧
  (∀ self stats,
     calculate_statistics self = Ok stats →
     let top := KOLStats.topCitationRatioKOL stats in
     ∃ pre post top_ratio,
       _kols self = (pre ++ TopCitationRatioKOL.kol top :: post)%list ∧
       citation_ratio (TopCitationRatioKOL.kol top) = Ok top_ratio ∧
       round top_ratio 2 ≫= float_type = Ok (TopCitationRatioKOL.ratio top) ∧
       Forall (fun kol => ∃ r, citation_ratio kol = Ok r ∧ gt top_ratio r = true) pre ∧
       Forall (fun kol => ∃ r, citation_ratio kol = Ok r ∧ gt r top_ratio = false) post) ∧
  (citation_ratio <$> _kols fixture = [Ok (Float ten); Ok (Float ten); Ok (Float ten)] ∧
   (float_Q ten == 10)%Q ∧
   ∃ stats, calculate_statistics fixture = Ok stats ∧
     Some (TopCitationRatioKOL.kol (KOLStats.topCitationRatioKOL stats)) =
       _kols fixture !! 0%nat ∧
     TopCitationRatioKOL.ratio (KOLStats.topCitationRatioKOL stats) = ten).
Proof.
  split; [done|split].
  - intros self stats (_ & l & Hl & Htop & _)%calculate_statistics_Ok. cbn zeta.
    apply aggregates_Ok in Hl as (_ & _ & _ & Hpairs%kol_with_ratios_Ok & _).
    destruct Hpairs as [Hkols Hratios].
    apply top_citation_ratio_kol_Ok in Htop as (top_ratio & Hmax & Hround).
    set (top_kol := TopCitationRatioKOL.kol _) in *.
    unfold max in Hmax. destruct (ratios l) as [|best pairs] eqn:Hl; [done|].
    injection Hmax as Hmax.
    destruct (max_scan_first_max snd best pairs) as (pre & post & Heq & Hpre & Hpost).
    { eapply Forall_impl; [exact Hratios|]. intros p Hp. cbn beta in *.
      eapply citation_ratio_not_nan, Hp. }
    rewrite Hmax in *. rewrite Heq in Hratios, Hkols.
    rewrite fmap_app, fmap_cons in Hkols. cbn in Hkols.
    apply Forall_app in Hratios as [Hratios_pre Hratios_post].
    apply Forall_cons in Hratios_post as [Htop Hratios_post]. cbn in Htop.
    exists pre.*1, post.*1, top_ratio. split_and!; [done..| |].
    + apply Forall_fmap, Forall_forall. intros p Hp. cbn. exists p.2.
      rewrite Forall_forall in Hratios_pre, Hpre. split; [by apply Hratios_pre|].
      by apply (Hpre p).
    + apply Forall_fmap, Forall_forall. intros p Hp. cbn. exists p.2.
      rewrite Forall_forall in Hratios_post, Hpost. split; [by apply Hratios_post|].
      by apply (Hpost p).
  - split_and!; [by vm_compute|by vm_compute|].
    eexists. split; [vm_compute; reflexivity|]. by split.
Qed.

Lemma top_citation_ratio_first_max_witness :
  ∃ stats pre post top_ratio,
    calculate_statistics fixture = Ok stats ∧
    _kols fixture =
      (pre ++ TopCitationRatioKOL.kol (KOLStats.topCitationRatioKOL stats) :: post)%list ∧
    Forall (fun kol => ∃ r, citation_ratio kol = Ok r ∧ gt top_ratio r = true) pre ∧
    Forall (fun kol => ∃ r, citation_ratio kol = Ok r ∧ gt r top_ratio = false) post.
Proof.
  destruct top_citation_ratio_first_max as (_ & Hfirst & _).
  eexists.
  destruct (Hfirst fixture _ eq_refl) as (pre & post & top_ratio & Hkols & _ & _ & Hpre & Hpost).
  exists pre, post, top_ratio. split_and!; [reflexivity|exact Hkols|exact Hpre|exact Hpost].
Defined.

(** ** A zero average *)

Section ZeroAverage.
Lemma citation_ratio_shape kol r :
  citation_ratio kol = Ok r → r = Int 0 ∨ ∃ f, r = Float f.
Proof.
  unfold citation_ratio. destruct (publicationsCount kol >? 0).
  - cbn. intros (f & _ & [= <-])%bind_Ok. right. by eexists.
  - intros [= <-]. by left.
Qed.

Lemma avg_citations_per_pub_shape kols avg :
  avg_citations_per_pub kols = Ok avg → is_zero avg = true →
  avg = Int 0 ∨ ∃ s, avg = Float (S754_zero s).
Proof.
  unfold avg_citations_per_pub. destruct (_ >? 0).
  - cbn. intros (f & _ & [= <-])%bind_Ok. cbn. destruct f; try done.
    right. by eexists.
  - intros [= <-]. by left.
Qed.

Lemma max_scan_elem_of {A} (key : A -> num) (best : A) (l : list A) :
  max_scan key best l ∈ best :: l.
Proof.
  revert best. induction l as [|x l IH]; intros best; [left|].
  cbn. destruct (gt (key x) (key best)).
  - right. apply IH.
  - specialize (IH best). apply elem_of_cons in IH as [->|IH]; [left|].
    right. by right.
Qed.

(** Dividing the distance to a zero average by that average. *)
Lemma relative_to_zero top_ratio avg :
  (top_ratio = Int 0 ∨ ∃ f, top_ratio = Float f) →
  (avg = Int 0 ∨ ∃ s, avg = Float (S754_zero s)) →
  (sub top_ratio avg ≫= fun above => div above avg) = Raise ZeroDivisionError.
Proof. by intros [->|[f ->]] [->|[s ->]]. Qed.

Lemma top_citation_ratio_kol_zero l :
  ratios l ≠ [] →
  Forall (fun p => citation_ratio p.1 = Ok p.2) (ratios l) →
  (avg_citations l = Int 0 ∨ ∃ s, avg_citations l = Float (S754_zero s)) →
  top_citation_ratio_kol l = Raise ZeroDivisionError.
Proof.
  intros Hne Hratios Havg. unfold top_citation_ratio_kol, max.
  destruct (ratios l) as [|best pairs]; [done|]. cbn.
  pose proof (max_scan_elem_of snd best pairs) as Hin.
  rewrite Forall_forall in Hratios. specialize (Hratios _ Hin).
  destruct (max_scan snd best pairs) as [top_kol top_ratio]. cbn in Hratios.
  apply citation_ratio_shape in Hratios.
  pose proof (relative_to_zero _ _ Hratios Havg) as Hdiv.
  destruct (sub top_ratio (avg_citations l)) as [above|e]; cbn in Hdiv |- *.
  - by rewrite Hdiv.
  - by injection Hdiv as ->.
Qed.
End ZeroAverage.

(** C3: as stated the claim fails on a record set whose counts exceed
    the range of a double: the average of citations per publication is
    0.0, yet the statistics fail with an [OverflowError], raised by the
    division that computes the average h-index. *)
Lemma zero_average_overflow_counterexample :
  _kols beyond_double ≠ [] ∧
  avg_citations_per_pub (_kols beyond_double) = Ok (Float (S754_zero false)) ∧
  calculate_statistics beyond_double = Raise OverflowError.
Proof. split_and!; [done|by vm_compute..]. Qed.

(** C3 (amended): for a non-empty record set whose average of citations
    per publication is 0, [calculate_statistics] returns no statistics;
    whenever the computations that precede [percentage_above_avg]
    complete, it fails with the [ZeroDivisionError] of the division by
    that average. *)
Theorem zero_average_division (self : KOLService.t) (avg : num) :
  _kols self ≠ [] →
  avg_citations_per_pub (_kols self) = Ok avg →
  is_zero avg = true →
  (∃ e, calculate_statistics self = Raise e) ∧
  (∀ l, aggregates (_kols self) = Ok l →
        calculate_statistics self = Raise ZeroDivisionError).
Proof.
  intros Hne Havg Hzero.
  assert (∀ l, aggregates (_kols self) = Ok l →
               calculate_statistics self = Raise ZeroDivisionError) as Hdiv.
  { intros l Hl. unfold calculate_statistics.
    destruct (_kols self) as [|kol kols] eqn:Hkols; [done|].
    rewrite Hl. cbn -[top_citation_ratio_kol].
    apply aggregates_Ok in Hl as (Havg' & _ & _ & Hpairs%kol_with_ratios_Ok & _).
    destruct Hpairs as [Hfst Hratios].
    rewrite (top_citation_ratio_kol_zero l); [done| |done|].
    - intros Hnil. by rewrite Hnil in Hfst.
    - eapply avg_citations_per_pub_shape; [exact Havg'|].
      rewrite Havg in Havg'. by simplify_eq. }
  split; [|done].
  destruct (aggregates (_kols self)) as [l|e] eqn:Hl.
  - exists ZeroDivisionError. by apply (Hdiv l).
  - exists e. unfold calculate_statistics.
    destruct (_kols self); [done|]. by rewrite Hl.
Qed.

Lemma zero_average_division_witness :
  _kols no_publications ≠ [] ∧
  avg_citations_per_pub (_kols no_publications) = Ok (Int 0) ∧
  (∃ l, aggregates (_kols no_publications) = Ok l) ∧
  calculate_statistics no_publications = Raise ZeroDivisionError.
Proof.
  assert (_kols no_publications ≠ []) as Hne by done.
  assert (∃ l, aggregates (_kols no_publications) = Ok l) as [l Hl]
    by (eexists; vm_compute; reflexivity).
  split_and!; [done|done|by exists l|].
  by apply (zero_average_division no_publications (Int 0) Hne eq_refl eq_refl) with l.
Defined.

Section DivisionError.
Local Open Scope Q_scope.

Lemma SFdiv_core_binary_value (pc pn : positive) :
  let r := SFdiv_core_binary prec emax (Z.pos pc) 0 (Z.pos pn) 0 in
  (0 <= r.1.1)%Z ∧ ((2 ^ 52 <= r.1.1)%Z ∨ r.1.2 = (-1074)%Z) ∧
  val r.1.1 r.1.2 * inject_Z (Z.pos pn) <= inject_Z (Z.pos pc).
Proof.
  unfold SFdiv_core_binary. cbn [Zdigits2].
  pose proof (digits2_pos_bounds pc) as [Hc_lo _].
  pose proof (digits2_pos_bounds pn) as [_ Hn_hi].
  set (d1 := Z.pos (digits2_pos pc)) in *. set (d2 := Z.pos (digits2_pos pn)) in *.
  set (e' := Z.min _ _). set (s := (0 - 0 - e')%Z).
  assert (e' <= 0)%Z as He' by (unfold e'; lia).
  assert (0 <= s)%Z as Hs by (unfold s; lia).
  set (m' := match s with 0%Z => _ | Z.pos _ => _ | Z.neg _ => _ end).
  assert (m' = Z.pos pc * 2 ^ s)%Z as Hm'.
  { unfold m'. destruct s as [|ps|ps] eqn:Hs'; [lia| |lia].
    by rewrite Z.shiftl_mul_pow2. }
  pose proof (pow2_pos s Hs) as Hpow.
  unfold Z.div_eucl. fold (Z.div_eucl m' (Z.pos pn)).
  pose proof (Z_div_mod m' (Z.pos pn) ltac:(lia)) as Hdm.
  destruct (Z.div_eucl m' (Z.pos pn)) as [q r]. destruct Hdm as [Hq Hr].
  cbn [fst snd].
  assert (0 <= q)%Z as Hq0 by nia.
  split_and!; [done| |].
  - unfold e', fexp, SpecFloat.emin, prec, emax in *.
    destruct (decide (Z.min (Z.max (d1 + 0 - (d2 + 0) - 53) (3 - 1024 - 53)) (0 - 0)
                      = -1074)%Z) as [?|Hne]; [by right|left].
    assert (2 ^ (52 + d2) <= Z.pos pc * 2 ^ s)%Z as Hbig.
    { etrans; [|apply Z.mul_le_mono_nonneg_r; [lia|exact Hc_lo]].
      rewrite <-Z.pow_add_r by lia. apply Z.pow_le_mono_r; lia. }
    rewrite Z.pow_add_r in Hbig by lia. nia.
  - unfold val. rewrite <-Qmult_assoc, (Qmult_comm (2 ^ e')), Qmult_assoc.
    rewrite <-inject_Z_mult.
    assert (inject_Z (q * Z.pos pn) <= inject_Z (Z.pos pc * 2 ^ s)) as Hle.
    { rewrite <-Zle_Qle. nia. }
    assert (inject_Z (Z.pos pc) == inject_Z (Z.pos pc * 2 ^ s) * 2 ^ e') as ->.
    { rewrite inject_Z_mult, Zpower_Qpower by done.
      rewrite <-Qmult_assoc, <-Qpower_plus by done.
      replace (s + e')%Z with 0%Z by (unfold s; lia). cbn. ring. }
    apply Qmult_le_compat_r; [done|apply Qlt_le_weak, pow2_Q_pos].
Qed.
Lemma int_true_div_upper (c n : Z) (x : float) :
  (0 <= c)%Z → (0 < n)%Z → int_true_div c n = Ok x →
  float_Q x <= inject_Z c / inject_Z n * (1 + ulp_rel) + tiny ∧
  (x = S754_zero false ∨ ∃ p e, x = S754_finite false p e).
Proof.
  intros Hc Hn. unfold int_true_div.
  destruct (n =? 0)%Z eqn:Hn0; [apply Z.eqb_eq in Hn0; lia|].
  destruct n as [|pn|pn]; [lia| |lia].
  assert (0 < inject_Z (Z.pos pn)) as HnQ by (by rewrite <-(Zlt_Qlt 0)).
  assert (0 <= inject_Z c / inject_Z (Z.pos pn)) as HV0.
  { apply Qle_shift_div_l; [done|]. rewrite Qmult_0_l. by rewrite <-(Zle_Qle 0). }
  assert (0 <= inject_Z c / inject_Z (Z.pos pn) * (1 + ulp_rel) + tiny) as Hrhs.
  { pose proof tiny_pos. pose proof ulp_rel_pos.
    assert (0 <= inject_Z c / inject_Z (Z.pos pn) * ulp_rel)
      by (apply Qmult_le_0_compat; lra).
    lra. }
  destruct c as [|pc|pc]; [|clear Hc|lia].
  { cbn. intros [= <-]. split; [by rewrite float_Q_zero|by left]. }
  cbn [Z2SF SFdiv xorb].
  pose proof (SFdiv_core_binary_value pc pn) as (Hq0 & Hfull & Hval). cbn zeta in *.
  destruct (SFdiv_core_binary prec emax (Z.pos pc) 0 (Z.pos pn) 0) as [[q e'] l].
  cbn [fst snd] in *.
  pose proof (binary_round_aux_upper q e' l (inject_Z (Z.pos pc) / inject_Z (Z.pos pn))
                Hq0 (fun _ => Hfull)) as Hup.
  assert (val q e' <= inject_Z (Z.pos pc) / inject_Z (Z.pos pn)) as HV
    by (by apply Qle_shift_div_l).
  specialize (Hup HV).
  pose proof (binary_round_aux_not_nan false q e' l Hq0) as Hnan.
  unfold binary_round_aux in *.
  destruct (shr_fexp prec emax q e' l) as [mrs' e1].
  destruct (shr_fexp prec emax _ e1 loc_Exact) as [mrs'' e2].
  destruct (shr_m mrs'') as [|p|p]; [| |done].
  - intros [= <-]. split; [done|by left].
  - destruct (e2 <=? emax - prec)%Z; [|done].
    intros [= <-]. split; [done|right; by eexists _, _].
Qed.
Lemma percentage_bound_mono V V' : V <= V' → percentage_bound V <= percentage_bound V'.
Proof.
  intros H. unfold percentage_bound. pose proof ulp_rel_pos as Hu.
  apply Qplus_le_l. apply Qmult_le_compat_r; [|lra].
  apply Qmult_le_compat_r; [|lra].
  apply Qplus_le_l. apply Qmult_le_compat_r; [done|lra].
Qed.

Lemma int_to_float_100 : int_to_float 100 = Ok (S754_finite false 7036874417766400 (-46)).
Proof. by vm_compute. Qed.

Lemma percentage_upper (c n : Z) (p : float) :
  (0 <= c)%Z → (0 < n)%Z → percentage c n = Ok (Float p) →
  float_Q p <= percentage_bound (inject_Z c / inject_Z n).
Proof.
  intros Hc Hn. unfold percentage. intros (q & Hq & Hp)%bind_Ok.
  cbn in Hq. apply bind_Ok in Hq as (x & Hx & [= <-]).
  apply int_true_div_upper in Hx as [Hx Hshape]; [|done..].
  unfold mul, to_float in Hp. rewrite int_to_float_100 in Hp.
  cbn -[SFmul] in Hp. injection Hp as <-.
  pose proof tiny_pos as Ht. pose proof ulp_rel_pos as Hu.
  assert (0 <= float_Q x) as Hx0.
  { destruct Hshape as [->|(mx & ex & ->)]; [by rewrite float_Q_zero|].
    rewrite float_Q_finite. by apply val_nonneg. }
  assert (float_Q x * 100 * (1 + ulp_rel) + tiny <=
          percentage_bound (inject_Z c / inject_Z n)) as Hmono.
  { unfold percentage_bound. apply Qplus_le_l.
    apply Qmult_le_compat_r; [|lra]. apply Qmult_le_compat_r; [done|lra]. }
  eapply Qle_trans; [|exact Hmono].
  destruct Hshape as [->|(mx & ex & ->)].
  - cbn [SFmul xorb]. rewrite float_Q_zero in *. lra.
  - cbn [SFmul xorb]. apply binary_round_aux_upper; [lia|done|].
    rewrite float_Q_finite. unfold val.
    rewrite Pos2Z.inj_mul, inject_Z_mult, Qpower_plus by done.
    assert (inject_Z 7036874417766400 * 2 ^ (-46) == 100) as H100 by (by vm_compute).
    rewrite <-H100. apply Qle_lteq. right. ring.
Qed.
Lemma percentage_bound_affine V :
  percentage_bound V == percentage_bound 0 + (percentage_bound 1 - percentage_bound 0) * V.
Proof. unfold percentage_bound. ring. Qed.

Lemma Qsum_cons (q : Q) (qs : list Q) : Qsum (q :: qs) = q + Qsum qs.
Proof. done. Qed.

Lemma Qsum_percentages {E} (count : E -> Z) (pct : E -> float) (n : Z) (es : list E) :
  (0 < n)%Z →
  Forall (fun e => (0 <= count e)%Z ∧ percentage (count e) n = Ok (Float (pct e))) es →
  Qsum (float_Q <$> (pct <$> es)) <=
    percentage_bound 0 * inject_Z (Z.of_nat (length es)) +
    (percentage_bound 1 - percentage_bound 0) *
      (inject_Z (sum (count <$> es)) / inject_Z n).
Proof.
  intros Hn. assert (0 < inject_Z n) as HnQ by (by rewrite <-(Zlt_Qlt 0)).
  induction 1 as [|e es [Hc Hp] _ IH].
  - change (Qsum (float_Q <$> (pct <$> []))) with 0.
    change (inject_Z (Z.of_nat (length (@nil E)))) with 0.
    change (inject_Z (sum (count <$> []))) with 0.
    unfold Qdiv. rewrite Qmult_0_l, !Qmult_0_r. by vm_compute.
  - rewrite !fmap_cons, Qsum_cons, sum_cons. cbn [length].
    rewrite Nat2Z.inj_succ, <-Z.add_1_l, !inject_Z_plus.
    pose proof (percentage_upper _ _ _ Hc Hn Hp) as Hup.
    rewrite percentage_bound_affine in Hup.
    assert ((inject_Z (count e) + inject_Z (sum (count <$> es))) / inject_Z n ==
            inject_Z (count e) / inject_Z n + inject_Z (sum (count <$> es)) / inject_Z n)
      as -> by (field; lra).
    change (inject_Z 1) with 1. rewrite !Qmult_plus_distr_r, Qmult_1_r.
    set (a := _ * (inject_Z (count e) / _)) in *.
    set (b := _ * (inject_Z (sum _) / _)) in *.
    set (k := percentage_bound 0 * inject_Z _) in *.
    lra.
Qed.

(** Ten entries whose counts add up to at most the total stay within
    [100 + 10^-12]. *)
Lemma percentage_bound_ten (k s n : Z) :
  (0 <= k <= 10)%Z → (0 <= s <= n)%Z → (0 < n)%Z →
  percentage_bound 0 * inject_Z k +
  (percentage_bound 1 - percentage_bound 0) * (inject_Z s / inject_Z n) <=
  100 + (1 # 1000000000000).
Proof.
  intros Hk Hs Hn. assert (0 < inject_Z n) as HnQ by (by rewrite <-(Zlt_Qlt 0)).
  assert (inject_Z s / inject_Z n <= 1) as Hs1.
  { apply Qle_shift_div_r; [done|]. rewrite Qmult_1_l, <-Zle_Qle. lia. }
  assert (0 <= inject_Z s / inject_Z n) as Hs0.
  { apply Qle_shift_div_l; [done|]. rewrite Qmult_0_l, <-(Zle_Qle 0). lia. }
  destruct Hk as [Hk0 Hk1]. rewrite Zle_Qle in Hk0, Hk1.
  change (inject_Z 0) with 0 in Hk0. change (inject_Z 10) with 10 in Hk1.
  assert (0 < percentage_bound 0) as H0 by (by vm_compute).
  assert (0 < percentage_bound 1 - percentage_bound 0) as H1 by (by vm_compute).
  assert (percentage_bound 0 * 10 + (percentage_bound 1 - percentage_bound 0) <=
          100 + (1 # 1000000000000)) as Hnum by (by vm_compute).
  assert (percentage_bound 0 * inject_Z k <= percentage_bound 0 * 10) as Ha
    by (by apply Qmult_le_l).
  assert ((percentage_bound 1 - percentage_bound 0) * (inject_Z s / inject_Z n) <=
          (percentage_bound 1 - percentage_bound 0) * 1) as Hb
    by (by apply Qmult_le_l).
  set (x := percentage_bound 0 * inject_Z k) in *.
  set (y := _ * (inject_Z s / inject_Z n)) in *.
  lra.
Qed.
End DivisionError.

(** ** Floats: rounding to nearest loses little *)

Section RoundingBelow.
Local Open Scope Q_scope.

Lemma val_shift_up k m e :
  (0 <= k)%Z -> (0 <= m)%Z -> val (m + 1) e <= val (m / 2 ^ k + 1) (e + k).
Proof.
  intros Hk Hm. unfold val.
  rewrite Qpower_plus by done.
  rewrite <-(Zpower_Qpower 2 k) by done.
  rewrite (Qmult_comm (2 ^ e)), Qmult_assoc, <-inject_Z_mult.
  apply Qmult_le_compat_r; [|apply Qlt_le_weak, pow2_Q_pos].
  rewrite <-Zle_Qle.
  pose proof (pow2_pos k Hk) as Hpos.
  pose proof (Z.mul_succ_div_gt m (2 ^ k) Hpos). lia.
Qed.

Lemma shr_fexp_up m e l :
  (0 <= m)%Z ->
  let r := shr_fexp prec emax m e l in
  val (m + 1) e <= val (shr_m r.1 + 1) r.2.
Proof.
  intros Hm. unfold shr_fexp, shr.
  destruct (fexp prec emax (Zdigits2 m + e) - e)%Z as [|p|p] eqn:Hn; cbn zeta.
  1, 3: cbn [fst snd]; rewrite shr_m_of_loc; apply Qle_refl.
  cbn [fst snd].
  rewrite iter_shr_1_div by (by rewrite shr_m_of_loc). rewrite shr_m_of_loc.
  apply val_shift_up; lia.
Qed.

Lemma ulp_rel_le_1 : ulp_rel <= 1.
Proof. by vm_compute. Qed.

(** Rounding to nearest loses at most three units in the last place,
    counted generously, with respect to the exact value [V]. *)
Lemma binary_round_aux_lower m e l V :
  (0 <= m)%Z ->
  (l ≠ loc_Exact -> (2 ^ 52 <= m)%Z ∨ e = (-1074)%Z) ->
  val m e <= V -> V <= val (m + 1) e -> (l = loc_Exact -> V <= val m e) ->
  binary_round_aux prec emax false m e l = S754_infinity false ∨
  V * (1 - 3 * ulp_rel) - 3 * tiny <= float_Q (binary_round_aux prec emax false m e l).
Proof.
  intros Hm Hcond HV Hnext Hexact.
  pose proof (binary_round_aux_upper m e l V Hm Hcond HV) as Hupper.
  unfold binary_round_aux in *.
  pose proof (shr_fexp_value m e l Hm) as (Hk & Hvk & Hck).
  pose proof (shr_fexp_up m e l Hm) as Hup1. cbn zeta in *.
  destruct (shr_fexp prec emax m e l) as [mrs' e']. cbn [fst snd] in *.
  set (mk := shr_m mrs') in *. set (lk := loc_of_shr_record mrs') in *.
  destruct (round_nearest_even_bounds mk lk Hk) as [[Hr0 Hr1] Hrx].
  assert (mk <= round_nearest_even mk lk)%Z as Hr2.
  { destruct lk as [|[]]; cbn; try lia. destruct (Z.even mk); lia. }
  set (m' := round_nearest_even mk lk) in *.
  pose proof (shr_fexp_value m' e' loc_Exact Hr0) as (Hk2 & Hvk2 & Hck2).
  pose proof (shr_fexp_up m' e' loc_Exact Hr0) as Hup2. cbn zeta in *.
  destruct (shr_fexp prec emax m' e' loc_Exact) as [mrs'' e'']. cbn [fst snd] in *.
  set (m'' := shr_m mrs'') in *.
  pose proof (val_nonneg m e Hm) as HV0.
  pose proof tiny_pos as Ht. pose proof ulp_rel_pos as Hu. pose proof ulp_rel_le_1 as Hu1.
  assert (0 <= ulp_rel * V) as HuV.
  { apply Qmult_le_0_compat; [apply Qlt_le_weak, ulp_rel_pos|lra]. }
  pose proof (val_mono mk m' e' Hr2) as Hmono.
  (* first rounding *)
  assert (V <= val m' e' + ulp_rel * V + tiny) as HA.
  { assert (lk = loc_Exact ∨ lk ≠ loc_Exact) as [Hx|Hx]
      by (destruct lk; [by left|by right]).
    - destruct Hck as [Hfull|[He|(Hm_eq & He_eq & Hl_eq)]].
      + rewrite (val_succ mk e') in Hup1.
        pose proof (unit_bound mk e' V Hk ltac:(lra) ltac:(by left)). lra.
      + rewrite (val_succ mk e') in Hup1.
        pose proof (unit_bound mk e' V Hk ltac:(lra) ltac:(by right)). lra.
      + rewrite (Hrx Hx), Hm_eq, He_eq.
        rewrite Hl_eq in Hx. specialize (Hexact Hx). lra.
    - rewrite (val_succ mk e') in Hup1.
      assert (2 ^ e' <= ulp_rel * V + tiny) as Hunit; [|lra].
      destruct Hck as [Hfull|[He|(Hm_eq & He_eq & Hl_eq)]].
      + apply (unit_bound mk); [done|lra|by left].
      + apply (unit_bound mk); [done|lra|by right].
      + rewrite He_eq. apply (unit_bound m); [done|done|].
        apply Hcond. by rewrite <-Hl_eq. }
  (* second normalisation *)
  pose proof (val_nonneg m'' e'' Hk2) as HR0.
  assert (0 <= ulp_rel * val m'' e'') as HuR.
  { apply Qmult_le_0_compat; [apply Qlt_le_weak, ulp_rel_pos|lra]. }
  assert (val m' e' <= val m'' e'' + ulp_rel * val m'' e'' + tiny) as HB.
  { destruct Hck2 as [Hfull|[He|(Hm_eq & He_eq & _)]].
    + rewrite (val_succ m'' e''), (val_succ m' e') in Hup2.
      pose proof (unit_bound m'' e'' (val m'' e'') Hk2 ltac:(lra) ltac:(by left)).
      pose proof (pow2_Q_pos e'). lra.
    + rewrite (val_succ m'' e''), (val_succ m' e') in Hup2.
      pose proof (unit_bound m'' e'' (val m'' e'') Hk2 ltac:(lra) ltac:(by right)).
      pose proof (pow2_Q_pos e'). lra.
    + rewrite <-Hm_eq, <-He_eq. lra. }
  fold m'' in Hupper |- *.
  destruct m'' as [|p|p] eqn:Hm''.
  - right. rewrite float_Q_zero.
    assert (val 0 e'' == 0) as H0 by (unfold val; ring). rewrite H0 in *. lra.
  - destruct (e'' <=? emax - prec)%Z; [right|by left].
    rewrite float_Q_finite in *.
    set (R := val (Z.pos p) e'') in *.
    assert (ulp_rel * R <= ulp_rel * (V * (1 + ulp_rel) + tiny)) as H1.
    { apply Qmult_le_l; [done|done]. }
    assert (ulp_rel * (ulp_rel * V) <= 1 * (ulp_rel * V)) as H2.
    { apply Qmult_le_compat_r; [done|done]. }
    assert (ulp_rel * tiny <= 1 * tiny) as H3.
    { apply Qmult_le_compat_r; [done|lra]. }
    set (a := ulp_rel * V) in *. set (b := ulp_rel * R) in *.
    set (c := ulp_rel * a) in *. set (d := ulp_rel * tiny) in *.
    assert (ulp_rel * (V * (1 + ulp_rel) + tiny) == a + c + d) as H4
      by (unfold c, d, a; ring).
    assert (V * (1 - 3 * ulp_rel) == V - 3 * a) as -> by (unfold a; ring).
    lra.
  - exfalso. unfold m'' in *. lia.
Qed.
End RoundingBelow.

Section DivisionBelow.
Local Open Scope Q_scope.

Lemma new_location_Exact n k : new_location n k = loc_Exact → k = 0%Z.
Proof.
  unfold new_location, new_location_even, new_location_odd.
  destruct (Z.even n); destruct (k =? 0)%Z eqn:Hk; try done; intros _; by apply Z.eqb_eq.
Qed.

Lemma SFdiv_core_binary_next (pc pn : positive) :
  let r := SFdiv_core_binary prec emax (Z.pos pc) 0 (Z.pos pn) 0 in
  inject_Z (Z.pos pc) <= val (r.1.1 + 1) r.1.2 * inject_Z (Z.pos pn) ∧
  (r.2 = loc_Exact → inject_Z (Z.pos pc) <= val r.1.1 r.1.2 * inject_Z (Z.pos pn)).
Proof.
  unfold SFdiv_core_binary. cbn [Zdigits2].
  set (d1 := Z.pos (digits2_pos pc)) in *. set (d2 := Z.pos (digits2_pos pn)) in *.
  set (e' := Z.min _ _). set (s := (0 - 0 - e')%Z).
  assert (e' <= 0)%Z as He' by (unfold e'; lia).
  assert (0 <= s)%Z as Hs by (unfold s; lia).
  set (m' := match s with 0%Z => _ | Z.pos _ => _ | Z.neg _ => _ end).
  assert (m' = Z.pos pc * 2 ^ s)%Z as Hm'.
  { unfold m'. destruct s as [|ps|ps] eqn:Hs'; [lia| |lia].
    by rewrite Z.shiftl_mul_pow2. }
  pose proof (pow2_pos s Hs) as Hpow.
  unfold Z.div_eucl. fold (Z.div_eucl m' (Z.pos pn)).
  pose proof (Z_div_mod m' (Z.pos pn) ltac:(lia)) as Hdm.
  destruct (Z.div_eucl m' (Z.pos pn)) as [q r]. destruct Hdm as [Hq Hr].
  cbn [fst snd].
  assert (inject_Z (Z.pos pc) == inject_Z (Z.pos pc * 2 ^ s) * 2 ^ e') as Hpc.
  { rewrite inject_Z_mult, Zpower_Qpower by done.
    rewrite <-Qmult_assoc, <-Qpower_plus by done.
    replace (s + e')%Z with 0%Z by (unfold s; lia). cbn. ring. }
  split.
  - unfold val. rewrite <-Qmult_assoc, (Qmult_comm (2 ^ e')), Qmult_assoc.
    rewrite <-inject_Z_mult. rewrite Hpc.
    apply Qmult_le_compat_r; [|apply Qlt_le_weak, pow2_Q_pos].
    rewrite <-Zle_Qle. nia.
  - intros Hr0%new_location_Exact.
    unfold val. rewrite <-Qmult_assoc, (Qmult_comm (2 ^ e')), Qmult_assoc.
    rewrite <-inject_Z_mult. rewrite Hpc.
    apply Qmult_le_compat_r; [|apply Qlt_le_weak, pow2_Q_pos].
    rewrite <-Zle_Qle. nia.
Qed.

Lemma int_true_div_lower (c n : Z) (x : float) :
  (0 <= c)%Z → (0 < n)%Z → int_true_div c n = Ok x →
  inject_Z c / inject_Z n * (1 - 3 * ulp_rel) - 3 * tiny <= float_Q x.
Proof.
  intros Hc Hn. unfold int_true_div.
  destruct (n =? 0)%Z eqn:Hn0; [apply Z.eqb_eq in Hn0; lia|].
  destruct n as [|pn|pn]; [lia| |lia].
  assert (0 < inject_Z (Z.pos pn)) as HnQ by (by rewrite <-(Zlt_Qlt 0)).
  destruct c as [|pc|pc]; [|clear Hc|lia].
  { cbn [Z2SF SFdiv]. intros [= <-]. rewrite float_Q_zero. pose proof tiny_pos.
    assert (inject_Z 0 / inject_Z (Z.pos pn) == 0) as -> by (by unfold Qdiv; rewrite Qmult_0_l).
    lra. }
  cbn [Z2SF SFdiv xorb].
  pose proof (SFdiv_core_binary_value pc pn) as (Hq0 & Hfull & Hval).
  pose proof (SFdiv_core_binary_next pc pn) as (Hnext & Hexact). cbn zeta in *.
  destruct (SFdiv_core_binary prec emax (Z.pos pc) 0 (Z.pos pn) 0) as [[q e'] l].
  cbn [fst snd] in *.
  set (V := inject_Z (Z.pos pc) / inject_Z (Z.pos pn)).
  assert (val q e' <= V) as HV by (by apply Qle_shift_div_l).
  assert (V <= val (q + 1) e') as HV1 by (by apply Qle_shift_div_r).
  assert (l = loc_Exact → V <= val q e') as HVx.
  { intros Hl. apply Qle_shift_div_r; [done|]. by apply Hexact. }
  destruct (binary_round_aux_lower q e' l V Hq0 (fun _ => Hfull) HV HV1 HVx) as [Hinf|Hlow].
  - by rewrite Hinf.
  - destruct (binary_round_aux prec emax false q e' l) as [| | |]; by intros [= <-].
Qed.

Lemma percentage_lower (c n : Z) (p : float) :
  (0 <= c)%Z → (0 < n)%Z → percentage c n = Ok (Float p) →
  p ≠ S754_infinity false →
  percentage_floor (inject_Z c / inject_Z n) <= float_Q p.
Proof.
  intros Hc Hn. unfold percentage. intros (q & Hq & Hp)%bind_Ok Hfin.
  cbn in Hq. apply bind_Ok in Hq as (x & Hx & [= <-]).
  pose proof (int_true_div_lower _ _ _ Hc Hn Hx) as Hlow.
  apply int_true_div_upper in Hx as [Hx Hshape]; [|done..].
  unfold mul, to_float in Hp. rewrite int_to_float_100 in Hp.
  cbn -[SFmul] in Hp. injection Hp as <-.
  pose proof tiny_pos as Ht. pose proof ulp_rel_pos as Hu.
  assert (ulp_rel <= 1 # 4) as Hu4 by (by vm_compute).
  assert (0 <= float_Q x) as Hx0.
  { destruct Hshape as [->|(mx & ex & ->)]; [by rewrite float_Q_zero|].
    rewrite float_Q_finite. by apply val_nonneg. }
  set (L := inject_Z c / inject_Z n * (1 - 3 * ulp_rel) - 3 * tiny) in *.
  assert (percentage_floor (inject_Z c / inject_Z n) <=
          float_Q x * 100 * (1 - 3 * ulp_rel) - 3 * tiny) as Hmono.
  { unfold percentage_floor. fold L. apply Qplus_le_l.
    apply Qmult_le_compat_r; [|lra]. apply Qmult_le_compat_r; [done|lra]. }
  eapply Qle_trans; [exact Hmono|].
  destruct Hshape as [->|(mx & ex & ->)].
  - cbn [SFmul xorb]. rewrite float_Q_zero in *. lra.
  - cbn [SFmul xorb] in Hfin |- *.
    assert (float_Q (S754_finite false mx ex) * 100 ==
            val (Z.pos (mx * 7036874417766400)) (ex + -46)) as HV.
    { rewrite float_Q_finite. unfold val.
      rewrite Pos2Z.inj_mul, inject_Z_mult, Qpower_plus by done.
      assert (inject_Z 7036874417766400 * 2 ^ (-46) == 100) as H100 by (by vm_compute).
      rewrite <-H100. ring. }
    rewrite HV.
    destruct (binary_round_aux_lower (Z.pos (mx * 7036874417766400)) (ex + -46) loc_Exact
                (val (Z.pos (mx * 7036874417766400)) (ex + -46))) as [Hinf|Hlw].
    + lia.
    + done.
    + apply Qle_refl.
    + apply val_mono. lia.
    + intros _. apply Qle_refl.
    + done.
    + done.
Qed.
End DivisionBelow.

Section Closeness.
Local Open Scope Q_scope.

Lemma percentage_floor_affine V :
  percentage_floor V == percentage_floor 0 + (percentage_floor 1 - percentage_floor 0) * V.
Proof. unfold percentage_floor. ring. Qed.

Lemma exact_percentage_quotient (c n : Z) :
  (0 < n)%Z → exact_percentage n c == 100 * (inject_Z c / inject_Z n).
Proof.
  intros Hn. assert (0 < inject_Z n) as HnQ by (by rewrite <-(Zlt_Qlt 0)).
  assert (exact_percentage n c == inject_Z (c * 100) / inject_Z n) as ->.
  { unfold exact_percentage. rewrite Qmake_Qdiv. by rewrite Z2Pos.id. }
  rewrite inject_Z_mult. change (inject_Z 100) with 100. field. lra.
Qed.

Lemma bounded_float_finite p :
  float_ge p 0 = true → float_le p 100 = true → float_val p = XFin (float_Q p).
Proof.
  unfold float_ge, float_le, le, ge, float_Q. cbn [num_val].
  destruct p as [s|[]| |s m e]; cbn; try done.
Qed.

Lemma percentage_close (c n : Z) (p : float) :
  (0 <= c)%Z → (0 < n)%Z → percentage c n = Ok (Float p) →
  float_ge p 0 = true → float_le p 100 = true →
  close_to (exact_percentage n c) p.
Proof.
  intros Hc Hn Hp Hge Hle. exists (float_Q p).
  split; [by apply bounded_float_finite|].
  assert (p ≠ S754_infinity false) as Hfin by (intros ->; done).
  pose proof (percentage_lower c n p Hc Hn Hp Hfin) as Hlow.
  pose proof (percentage_upper c n p Hc Hn Hp) as Hup.
  rewrite percentage_floor_affine in Hlow. rewrite percentage_bound_affine in Hup.
  assert (0 < inject_Z n) as HnQ by (by rewrite <-(Zlt_Qlt 0)).
  assert (0 <= inject_Z c / inject_Z n) as HV0.
  { apply Qle_shift_div_l; [done|]. rewrite Qmult_0_l. by rewrite <-(Zle_Qle 0). }
  unfold rounding_error. rewrite (exact_percentage_quotient c n Hn).
  set (V := inject_Z c / inject_Z n) in *.
  assert (- 2 ^ (-1065) <= percentage_floor 0) as HF0 by (by vm_compute).
  assert (100 * (1 - 2 ^ (-49)) <= percentage_floor 1 - percentage_floor 0) as HF1
    by (by vm_compute).
  assert (percentage_bound 0 <= 2 ^ (-1065)) as HB0 by (by vm_compute).
  assert (percentage_bound 1 - percentage_bound 0 <= 100 * (1 + 2 ^ (-49))) as HB1
    by (by vm_compute).
  apply (Qmult_le_compat_r _ _ V) in HF1; [|done].
  apply (Qmult_le_compat_r _ _ V) in HB1; [|done].
  set (f1 := (percentage_floor 1 - percentage_floor 0) * V) in *.
  set (b1 := (percentage_bound 1 - percentage_bound 0) * V) in *.
  assert (100 * (1 - 2 ^ (-49)) * V == 100 * V - 100 * V * 2 ^ (-49)) as E1 by ring.
  assert (100 * (1 + 2 ^ (-49)) * V == 100 * V + 100 * V * 2 ^ (-49)) as E2 by ring.
  rewrite E1 in HF1. rewrite E2 in HB1.
  set (w := 100 * V * 2 ^ (-49)) in *.
  split; lra.
Qed.

Lemma close_to_float_Q q f :
  close_to q f → q - rounding_error q <= float_Q f ∧ float_Q f <= q + rounding_error q.
Proof. intros (v & Hv & Hlo & Hhi). unfold float_Q. by rewrite Hv. Qed.

Lemma Qsum_close {E} (q : E -> Q) (pct : E -> float) (es : list E) :
  Forall (fun e => close_to (q e) (pct e)) es →
  let total := Qsum (q <$> es) in
  let slack := total * 2 ^ (-49) + inject_Z (Z.of_nat (length es)) * 2 ^ (-1065) in
  total - slack <= Qsum (float_Q <$> (pct <$> es)) ∧
  Qsum (float_Q <$> (pct <$> es)) <= total + slack.
Proof.
  induction 1 as [|e es He _ IH]; cbn zeta in *.
  - change (Qsum (float_Q <$> (pct <$> []))) with 0.
    change (Qsum (q <$> [])) with 0.
    change (inject_Z (Z.of_nat (length (@nil E)))) with 0.
    split; ring_simplify; apply Qle_refl.
  - rewrite !fmap_cons, !Qsum_cons. cbn [length].
    rewrite Nat2Z.inj_succ, <-Z.add_1_l, !inject_Z_plus.
    change (inject_Z 1) with 1.
    apply close_to_float_Q in He as [Hlo Hhi]. unfold rounding_error in *.
    destruct IH as [IHlo IHhi].
    set (x := float_Q (pct e)) in *. set (xs := Qsum (float_Q <$> (pct <$> es))) in *.
    set (s := Qsum (q <$> es)) in *. set (m := inject_Z (Z.of_nat (length es))) in *.
    set (r := 2 ^ (-49)) in *. set (a := 2 ^ (-1065)) in *.
    assert ((q e + s) * r == q e * r + s * r) as -> by ring.
    assert ((1 + m) * a == a + m * a) as -> by ring.
    set (qr := q e * r) in *. set (sr := s * r) in *. set (ma := m * a) in *.
    split; lra.
Qed.

(** The percentage of the code is the double which the formula of the
    specification denotes. *)
Lemma percentage_is_percentage_of (c n : Z) (p : float) :
  percentage c n = Ok (Float p) → p = percentage_of c n.
Proof.
  unfold percentage, percentage_of. intros (q & Hq & Hp)%bind_Ok.
  cbn in Hq. apply bind_Ok in Hq as (x & Hx & [= <-]).
  unfold mul, to_float in Hp. rewrite int_to_float_100 in Hp.
  cbn -[SFmul] in Hp. injection Hp as <-. f_equal.
  unfold int_true_div in Hx. destruct (n =? 0)%Z; [done|].
  destruct (SFdiv prec emax (Z2SF c) (Z2SF n)); congruence.
Qed.

Lemma ExpertiseDistribution_new_bounds k n p e :
  ExpertiseDistribution.new k n p = Ok e →
  float_ge (ExpertiseDistribution.percentage e) 0 = true ∧
  float_le (ExpertiseDistribution.percentage e) 100 = true.
Proof.
  unfold ExpertiseDistribution.new. intros (f & Hf & He)%bind_Ok.
  repeat case_match; simplify_eq. cbn.
  split; by apply negb_false_iff.
Qed.

Lemma expertise_distribution_bounds kols out :
  expertise_distribution kols = Ok out →
  Forall (fun e => float_ge (ExpertiseDistribution.percentage e) 0 = true ∧
                   float_le (ExpertiseDistribution.percentage e) 100 = true) out.
Proof.
  intros H%comprehension_Forall2. apply Forall_forall.
  intros e [i Hi]%list_elem_of_lookup_1.
  destruct (Forall2_lookup_r _ _ _ _ _ H Hi) as ([k n] & _ & (p & _ & He)%bind_Ok).
  by apply ExpertiseDistribution_new_bounds in He.
Qed.
End Closeness.

(** C10: as stated, with the percentages being the floats of the code,
    the claim fails on the fixture: its three expertise areas get the
    percentage [(1 / 3) * 100] each, and three times this float is less
    than 100, in exact arithmetic and in float addition alike. *)
Lemma expertise_percentages_sum_counterexample :
  ∃ stats, calculate_statistics fixture = Ok stats ∧
    let percentages :=
      ExpertiseDistribution.percentage <$> KOLStats.expertiseDistribution stats in
    (Qsum (float_Q <$> percentages) < 100)%Q ∧
    (float_Q (float_sum percentages) < 100)%Q.
Proof. eexists. split; [vm_compute; reflexivity|]. split; vm_compute; reflexivity. Qed.

(** C10 (amended): [expertiseDistribution] partitions the record set:
    every expertise area of the set is the label of exactly one entry,
    the count of an entry is the number of records of its area, and the
    counts add up to the number of records. The percentage of an entry is
    the double [(count / totalKOLs) * 100], a number within a relative
    [2^-49] (and [2^-1065]) of the exact [count * 100 / totalKOLs]. The
    exact values add up to 100; the doubles reported add up to 100 within
    [100 * 2^-49], and [2^-1065] for each entry. *)
Theorem expertise_distribution_partition (self : KOLService.t) (stats : KOLStats.t) :
  calculate_statistics self = Ok stats →
  let total := KOLStats.totalKOLs stats in
  let dist := KOLStats.expertiseDistribution stats in
  let areas := expertiseArea <$> _kols self in
  let slack := (100 * 2 ^ (-49) +
                inject_Z (Z.of_nat (length dist)) * 2 ^ (-1065))%Q in
  NoDup (ExpertiseDistribution.expertiseArea <$> dist) ∧
  (∀ area, area ∈ ExpertiseDistribution.expertiseArea <$> dist ↔ area ∈ areas) ∧
  Forall (fun e =>
            ExpertiseDistribution.count e =
              occurrences (ExpertiseDistribution.expertiseArea e) areas ∧
            percentage (ExpertiseDistribution.count e) total =
              Ok (Float (ExpertiseDistribution.percentage e)) ∧
            ExpertiseDistribution.percentage e =
              percentage_of (ExpertiseDistribution.count e) total ∧
            close_to (exact_percentage total (ExpertiseDistribution.count e))
                     (ExpertiseDistribution.percentage e)) dist ∧
  sum (ExpertiseDistribution.count <$> dist) = total ∧
  (Qsum (exact_percentage total <$> (ExpertiseDistribution.count <$> dist)) == 100)%Q ∧
  (100 - slack <= Qsum (float_Q <$> (ExpertiseDistribution.percentage <$> dist)))%Q ∧
  (Qsum (float_Q <$> (ExpertiseDistribution.percentage <$> dist)) <= 100 + slack)%Q.
Proof.
  intros (Hne & l & Hl & _ & -> & _ & _ & ->)%calculate_statistics_Ok. cbn zeta.
  apply aggregates_Ok in Hl as (_ & _ & Hexp & _).
  pose proof (expertise_distribution_bounds _ _ Hexp) as Hbounds.
  apply expertise_distribution_Ok in Hexp as Hdist.
  set (areas := expertiseArea <$> _kols self) in *.
  set (n := Z.of_nat (length (_kols self))) in *.
  assert (0 < n) as Hn by (by apply length_pos).
  destruct (Forall2_labels_counts _ _ _ _ _ Hdist) as [Hlabels Hcounts].
  destruct (Counter_keys areas) as (Hnd & Hkeys & _).
  assert (Hsum : sum (ExpertiseDistribution.count <$> expertise l) = n).
  { rewrite Hcounts, sorted_counter_sum. unfold areas, n. by rewrite length_fmap. }
  assert (Hentries :
    Forall (fun e =>
              ExpertiseDistribution.count e =
                occurrences (ExpertiseDistribution.expertiseArea e) areas ∧
              percentage (ExpertiseDistribution.count e) n =
                Ok (Float (ExpertiseDistribution.percentage e)) ∧
              ExpertiseDistribution.percentage e =
                percentage_of (ExpertiseDistribution.count e) n ∧
              close_to (exact_percentage n (ExpertiseDistribution.count e))
                       (ExpertiseDistribution.percentage e)) (expertise l)).
  { apply Forall_forall. intros e He.
    pose proof (proj1 (Forall_forall _ _) Hbounds e He) as [Hge Hle].
    apply list_elem_of_lookup_1 in He as [i Hi].
    destruct (Forall2_lookup_r _ _ _ _ _ Hdist Hi) as (item & Hitem & Hc & Hcount & Hp).
    rewrite <-Hcount in Hp.
    assert (ExpertiseDistribution.count e =
            occurrences (ExpertiseDistribution.expertiseArea e) areas) as Hocc.
    { rewrite Hc, Hcount. apply list_elem_of_lookup_2 in Hitem.
      by apply (proj1 (Forall_forall _ _) (sorted_counter_counts areas)). }
    split_and!; [done|done|by apply percentage_is_percentage_of|].
    apply percentage_close; [|done..].
    rewrite Hocc. apply occurrences_nonneg. }
  assert (Hexact : (Qsum (exact_percentage n <$>
                            (ExpertiseDistribution.count <$> expertise l)) == 100)%Q).
  { rewrite Qsum_exact_percentage, Hsum. by apply exact_percentage_all. }
  split_and!; [| |done|done|done| |].
  - rewrite Hlabels. by rewrite (fmap_Permutation fst _ _ (sorted_reverse_perm snd _)).
  - intros area. rewrite Hlabels.
    by rewrite (fmap_Permutation fst _ _ (sorted_reverse_perm snd _)).
  - destruct (Qsum_close (fun e => exact_percentage n (ExpertiseDistribution.count e))
                ExpertiseDistribution.percentage (expertise l)) as [Hlo _].
    { eapply Forall_impl; [exact Hentries|]. by intros e (_ & _ & _ & Hclose). }
    rewrite (list_fmap_compose ExpertiseDistribution.count (exact_percentage n)) in Hlo.
    by rewrite Hexact in Hlo.
  - destruct (Qsum_close (fun e => exact_percentage n (ExpertiseDistribution.count e))
                ExpertiseDistribution.percentage (expertise l)) as [_ Hhi].
    { eapply Forall_impl; [exact Hentries|]. by intros e (_ & _ & _ & Hclose). }
    rewrite (list_fmap_compose ExpertiseDistribution.count (exact_percentage n)) in Hhi.
    by rewrite Hexact in Hhi.
Qed.

Lemma expertise_distribution_partition_witness :
  ∃ stats, calculate_statistics fixture = Ok stats ∧
    let percentages :=
      ExpertiseDistribution.percentage <$> KOLStats.expertiseDistribution stats in
    NoDup (ExpertiseDistribution.expertiseArea <$> KOLStats.expertiseDistribution stats) ∧
    sum (ExpertiseDistribution.count <$> KOLStats.expertiseDistribution stats) = 3 ∧
    (Qsum (exact_percentage 3 <$>
       (ExpertiseDistribution.count <$> KOLStats.expertiseDistribution stats)) == 100)%Q ∧
    (100 - (100 * 2 ^ (-49) + 3 * 2 ^ (-1065)) <= Qsum (float_Q <$> percentages))%Q ∧
    (Qsum (float_Q <$> percentages) <= 100 + (100 * 2 ^ (-49) + 3 * 2 ^ (-1065)))%Q.
Proof.
  eexists. split; [vm_compute; reflexivity|].
  pose proof (expertise_distribution_partition fixture _ eq_refl)
    as (Hnd & _ & _ & Hsum & Hq & Hlo & Hhi).
  split_and!; [exact Hnd|exact Hsum|exact Hq|exact Hlo|exact Hhi].
Defined.

(** C8: the statistics of a record set have at most 10 [topCountries];
    the count of an entry is the number of records of its country and its
    percentage is the double [(count / totalKOLs) * 100], a number which
    is within a relative [2^-49] (and [2^-1065]) of the exact
    [count * 100 / totalKOLs] and lies between 0 and 100; the counts add
    up to at most the number of records. The percentages add up to at
    most 100 when taken without the rounding of the float operations, and
    the doubles themselves to at most [100 + 10^-12]. *)
Theorem top_countries_bounds (self : KOLService.t) (stats : KOLStats.t) :
  calculate_statistics self = Ok stats →
  let total := KOLStats.totalKOLs stats in
  let top := KOLStats.topCountries stats in
  total = Z.of_nat (length (_kols self)) ∧
  (length top <= 10)%nat ∧
  Forall (fun e =>
            CountryDistribution.count e =
              occurrences (CountryDistribution.country e) (country <$> _kols self) ∧
            percentage (CountryDistribution.count e) total =
              Ok (Float (CountryDistribution.percentage e)) ∧
            CountryDistribution.percentage e =
              percentage_of (CountryDistribution.count e) total ∧
            close_to (exact_percentage total (CountryDistribution.count e))
                     (CountryDistribution.percentage e) ∧
            float_ge (CountryDistribution.percentage e) 0 = true ∧
            float_le (CountryDistribution.percentage e) 100 = true) top ∧
  sum (CountryDistribution.count <$> top) <= total ∧
  (Qsum (exact_percentage total <$> (CountryDistribution.count <$> top)) <= 100)%Q ∧
  (Qsum (float_Q <$> (CountryDistribution.percentage <$> top)) <=
     100 + (1 # 1000000000000))%Q.
Proof.
  intros (Hne & l & Hl & _ & -> & -> & Hlen & _)%calculate_statistics_Ok. cbn zeta.
  apply aggregates_Ok in Hl as (_ & Htop%top_countries_Ok & _).
  set (labels := country <$> _kols self) in *.
  assert (Hsum : sum (CountryDistribution.count <$> countries l) <=
                 Z.of_nat (length (_kols self))).
  { destruct (Forall2_labels_counts _ _ _ _ _ Htop) as [_ ->].
    unfold most_common. rewrite fmap_take.
    etrans; [apply sum_take_le|].
    - rewrite sorted_reverse_perm. apply Counter_nonneg.
    - rewrite sorted_counter_sum. unfold labels. by rewrite length_fmap. }
  assert (Hentries :
    Forall (fun e =>
              CountryDistribution.count e =
                occurrences (CountryDistribution.country e) labels ∧
              percentage (CountryDistribution.count e) (Z.of_nat (length (_kols self))) =
                Ok (Float (CountryDistribution.percentage e)) ∧
              CountryDistribution.percentage e =
                percentage_of (CountryDistribution.count e)
                              (Z.of_nat (length (_kols self))) ∧
              close_to (exact_percentage (Z.of_nat (length (_kols self)))
                                         (CountryDistribution.count e))
                       (CountryDistribution.percentage e) ∧
              float_ge (CountryDistribution.percentage e) 0 = true ∧
              float_le (CountryDistribution.percentage e) 100 = true) (countries l)).
  { apply Forall_forall. intros e [i Hi]%list_elem_of_lookup_1.
    destruct (Forall2_lookup_r _ _ _ _ _ Htop Hi)
      as (item & Hitem & Hc & Hn & Hp & Hge & Hle).
    rewrite <-Hn in Hp.
    assert (CountryDistribution.count e =
            occurrences (CountryDistribution.country e) labels) as Hocc.
    { rewrite Hc, Hn.
      apply lookup_take_Some in Hitem as [Hitem _].
      apply list_elem_of_lookup_2 in Hitem.
      by apply (proj1 (Forall_forall _ _) (sorted_counter_counts labels)). }
    split_and!; [done|done|by apply percentage_is_percentage_of| |done|done].
    apply percentage_close; [|by apply length_pos|done..].
    rewrite Hocc. apply occurrences_nonneg. }
  assert (Hcounts : Forall (fun e => 0 <= CountryDistribution.count e) (countries l)).
  { eapply Forall_impl; [exact Hentries|]. intros e (Hc & _).
    rewrite Hc. apply occurrences_nonneg. }
  split_and!; [done|done|done|done| |].
  - rewrite Qsum_exact_percentage.
    apply exact_percentage_le; [by apply length_pos|done].
  - eapply Qle_trans.
    + apply (Qsum_percentages CountryDistribution.count CountryDistribution.percentage
               (Z.of_nat (length (_kols self)))); [by apply length_pos|].
      apply Forall_and. split; [done|].
      eapply Forall_impl; [exact Hentries|]. by intros e (_ & Hp & _).
    + apply percentage_bound_ten; [lia| |by apply length_pos].
      split; [|done]. by apply sum_nonneg, Forall_fmap.
Qed.

Lemma top_countries_bounds_witness :
  ∃ stats, calculate_statistics fixture = Ok stats ∧
    KOLStats.totalKOLs stats = 3 ∧
    (length (KOLStats.topCountries stats) <= 10)%nat ∧
    sum (CountryDistribution.count <$> KOLStats.topCountries stats) <= 3 ∧
    (Qsum (exact_percentage 3 <$>
             (CountryDistribution.count <$> KOLStats.topCountries stats)) <= 100)%Q ∧
    (Qsum (float_Q <$> (CountryDistribution.percentage <$> KOLStats.topCountries stats)) <=
       100 + (1 # 1000000000000))%Q.
Proof.
  eexists. split; [vm_compute; reflexivity|].
  pose proof (top_countries_bounds fixture _ eq_refl)
    as (Htotal & Hlen & _ & Hsum & Hq & Hf).
  split_and!; [exact Htotal|exact Hlen|exact Hsum|exact Hq|exact Hf].
Defined.

(** * Further properties *)

(** ** Lookup helpers *)

Section UniqueValues.
Implicit Types (l : list string) (x y : string).

Lemma insert_asc_perm x l : insert_asc x l ≡ₚ x :: l.
Proof.
  induction l as [|y l IH]; [done|]. cbn.
  destruct (String.ltb y x); [|done]. rewrite IH. apply perm_swap.
Qed.

Lemma sorted_perm l : sorted l ≡ₚ l.
Proof.
  induction l as [|x l IH]; [done|]. cbn. by rewrite insert_asc_perm, IH.
Qed.

Lemma ltb_false_le x y : String.ltb y x = false → String.le x y.
Proof.
  unfold String.ltb, String.le, String.leb. rewrite (String.compare_antisym x y).
  by destruct (String.compare y x).
Qed.

Lemma ltb_true_le x y : String.ltb y x = true → String.le y x.
Proof.
  unfold String.ltb, String.le, String.leb. by destruct (String.compare y x).
Qed.

Lemma le_ne_ltb x y : String.le x y → x ≠ y → String.ltb x y = true.
Proof.
  unfold String.ltb, String.le, String.leb.
  destruct (String.compare x y) eqn:Hc; [|done..].
  by apply String.compare_eq_iff in Hc.
Qed.

Lemma insert_asc_sorted x l :
  StronglySorted String.le l → StronglySorted String.le (insert_asc x l).
Proof.
  induction 1 as [|y l Hl IH Hy]; cbn; [by repeat constructor|].
  destruct (String.ltb y x) eqn:Hyx.
  - constructor; [done|]. rewrite insert_asc_perm. constructor; [|done].
    by apply ltb_true_le.
  - apply ltb_false_le in Hyx. constructor; [by constructor|].
    constructor; [done|]. eapply Forall_impl; [exact Hy|].
    intros z Hz. by etrans.
Qed.

Lemma sorted_sorted l : StronglySorted String.le (sorted l).
Proof.
  induction l as [|x l IH]; cbn; [constructor|]. by apply insert_asc_sorted.
Qed.

(** In a sorted list without duplicates, positions increase strictly. *)
Lemma sorted_strict l i j a b :
  StronglySorted String.le l → NoDup l → (i < j)%nat →
  l !! i = Some a → l !! j = Some b → String.ltb a b = true.
Proof.
  intros Hs. revert i j. induction Hs as [|x l Hl IH Hx]; intros i j Hnd Hij Hi Hj.
  { by rewrite lookup_nil in Hi. }
  apply NoDup_cons in Hnd as [Hx_notin Hnd].
  destruct j as [|j]; [lia|]. cbn in Hj. destruct i as [|i]; simplify_eq/=.
  - apply list_elem_of_lookup_2 in Hj. apply le_ne_ltb.
    + by apply (proj1 (Forall_forall _ _) Hx).
    + by intros ->.
  - apply (IH i j); [done|lia|done..].
Qed.

(** The sorted list of the distinct values of a sequence of labels. *)
Lemma sorted_set_spec l :
  let out := sorted (elements (list_to_set (C := gset string) l)) in
  StronglySorted String.le out ∧ NoDup out ∧ ∀ x, x ∈ out ↔ x ∈ l.
Proof.
  cbn zeta. split_and!.
  - apply sorted_sorted.
  - rewrite sorted_perm. apply NoDup_elements.
  - intros x. rewrite sorted_perm, elem_of_elements. apply elem_of_list_to_set.
Qed.
End UniqueValues.

(** X1: [get_unique_countries] lists, in strictly ascending order and
    hence without repetition, exactly the countries of the records. *)
Theorem get_unique_countries_spec (self : KOLService.t) :
  strictly_ascending (get_unique_countries self) ∧
  ∀ c, c ∈ get_unique_countries self ↔ ∃ kol, kol ∈ _kols self ∧ country kol = c.
Proof.
  destruct (sorted_set_spec (country <$> _kols self)) as (Hs & Hnd & Hin).
  split.
  - intros i j a b. by apply sorted_strict.
  - intros c. unfold get_unique_countries. rewrite Hin, list_elem_of_fmap.
    split; [intros (k & -> & Hk); by exists k|intros (k & Hk & <-); by exists k].
Qed.

(** X2: [get_unique_expertise_areas] lists, in strictly ascending order
    and hence without repetition, exactly the expertise areas of the
    records. *)
Theorem get_unique_expertise_areas_spec (self : KOLService.t) :
  strictly_ascending (get_unique_expertise_areas self) ∧
  ∀ a, a ∈ get_unique_expertise_areas self ↔
       ∃ kol, kol ∈ _kols self ∧ expertiseArea kol = a.
Proof.
  destruct (sorted_set_spec (expertiseArea <$> _kols self)) as (Hs & Hnd & Hin).
  split.
  - intros i j a b. by apply sorted_strict.
  - intros a. unfold get_unique_expertise_areas. rewrite Hin, list_elem_of_fmap.
    split; [intros (k & -> & Hk); by exists k|intros (k & Hk & <-); by exists k].
Qed.

(** ** Totals of the statistics *)

Section Totals.
Lemma Counter_length (l : list string) :
  length (Counter l) = length (sorted (elements (list_to_set (C := gset string) l))).
Proof.
  destruct (Counter_keys l) as (Hnd & Hkeys & _).
  destruct (sorted_set_spec l) as (_ & Hnd' & Hin).
  rewrite <-(length_fmap fst). apply Permutation_length.
  apply NoDup_Permutation; [done..|]. intros x. by rewrite Hkeys, Hin.
Qed.

Lemma KOLStats_new_totals n p c h a top dist best stats :
  KOLStats.new n p c h a top dist best = Ok stats →
  KOLStats.totalPublications stats = p ∧ KOLStats.countriesRepresented stats = c.
Proof.
  unfold KOLStats.new. intros (fh & _ & (fa & _ & H)%bind_Ok)%bind_Ok.
  repeat case_match; by simplify_eq.
Qed.

Lemma aggregates_totals kols l :
  aggregates kols = Ok l →
  total_publications l = sum (publicationsCount <$> kols) ∧
  countries_represented l = Z.of_nat (length (Counter (country <$> kols))).
Proof.
  unfold aggregates.
  intros (h & _ & (a & Ha & (t & Ht & (d & Hd & (r & Hr & [= <-])%bind_Ok)
    %bind_Ok)%bind_Ok)%bind_Ok)%bind_Ok.
  done.
Qed.
End Totals.

(** X3: in the statistics of a record set, [totalKOLs] is the number of
    records, [totalPublications] the sum of their publication counts,
    [countriesRepresented] the number of countries listed by
    [get_unique_countries]; [topCountries] has 10 entries, or one per
    country when there are fewer than 10 countries, and
    [expertiseDistribution] has one entry per area listed by
    [get_unique_expertise_areas]. *)
Theorem statistics_totals (self : KOLService.t) (stats : KOLStats.t) :
  calculate_statistics self = Ok stats →
  KOLStats.totalKOLs stats = len (get_all_kols self) ∧
  KOLStats.totalPublications stats = sum (publicationsCount <$> get_all_kols self) ∧
  KOLStats.countriesRepresented stats = len (get_unique_countries self) ∧
  len (KOLStats.topCountries stats) = Z.min 10 (KOLStats.countriesRepresented stats) ∧
  len (KOLStats.expertiseDistribution stats) = len (get_unique_expertise_areas self).
Proof.
  intros Hstats.
  pose proof Hstats as (_ & l & Hl & _ & Htotal & Htop & _ & Hdist)%calculate_statistics_Ok.
  unfold calculate_statistics in Hstats. destruct (_kols self) as [|k kols] eqn:Hk; [done|].
  rewrite Hl in Hstats. cbn -[top_citation_ratio_kol round] in Hstats.
  apply bind_Ok in Hstats as (top & _ & (h & _ & (a & _ & Hnew%KOLStats_new_totals)
    %bind_Ok)%bind_Ok).
  destruct Hnew as [Hpubs Hcountries]. rewrite <-Hk in *.
  pose proof Hl as [Hp Hc]%aggregates_totals.
  apply aggregates_Ok in Hl as (_ & Htc%top_countries_Ok & Hed%expertise_distribution_Ok & _).
  unfold len, get_all_kols, get_unique_countries, get_unique_expertise_areas.
  rewrite <-!Counter_length. split_and!.
  - done.
  - by rewrite Hpubs, Hp.
  - by rewrite Hcountries, Hc.
  - rewrite Htop, Hcountries, Hc, <-(Forall2_length _ _ _ Htc).
    unfold most_common. rewrite length_take.
    rewrite (Permutation_length (sorted_reverse_perm snd _)). lia.
  - rewrite Hdist, <-(Forall2_length _ _ _ Hed).
    by rewrite (Permutation_length (sorted_reverse_perm snd _)).
Qed.

Lemma statistics_totals_witness :
  ∃ stats, calculate_statistics fixture = Ok stats ∧
    KOLStats.totalKOLs stats = 3 ∧ KOLStats.totalPublications stats = 35 ∧
    KOLStats.countriesRepresented stats = 2 ∧
    len (KOLStats.topCountries stats) = 2 ∧
    len (KOLStats.expertiseDistribution stats) = 3.
Proof.
  eexists. split; [vm_compute; reflexivity|].
  pose proof (statistics_totals fixture _ eq_refl) as (H1 & H2 & H3 & H4 & H5).
  split_and!; [exact H1|exact H2|exact H3|exact H4|exact H5].
Defined.

(** ** Bounds on the h-index *)

(** X4: with both bounds given, every record returned by [search_kols]
    has its h-index between them; inverted bounds return nothing, and
    equal bounds alone select exactly the records of that h-index. *)
Theorem search_kols_h_index_bounds (lower : string -> string) (self : KOLService.t)
    q c a (lo hi : Z) :
  (∀ kol, kol ∈ search_kols lower self q c a (Some lo) (Some hi) →
          lo <= hIndex kol <= hi) ∧
  (hi < lo → search_kols lower self q c a (Some lo) (Some hi) = []) ∧
  search_kols lower self None None None (Some lo) (Some lo) =
    filter (fun kol => hIndex kol = lo) (get_all_kols self).
Proof.
  assert (Hin : ∀ kol, kol ∈ search_kols lower self q c a (Some lo) (Some hi) →
                       lo <= hIndex kol <= hi).
  { intros kol. rewrite search_kols_truthy, list_elem_of_filter.
    unfold satisfies. cbn. tauto. }
  split_and!; [done| |].
  - intros Hinv.
    destruct (search_kols lower self q c a (Some lo) (Some hi)) as [|kol l] eqn:Hs;
      [done|].
    specialize (Hin kol ltac:(left)). lia.
  - rewrite search_kols_truthy. apply list_filter_iff. intros kol.
    unfold satisfies. cbn. lia.
Qed.

(** ** Loading *)

Section Loading.

End Loading.



(** X6: after a successful load, [get_kol_by_id] only ever returns a
    record of the store that bears the id asked for; when the ids of the
    store are pairwise distinct, every record is found under its id. *)
Theorem get_kol_by_id_round_trip lax raw_data self :
  _load_data lax (Parsed raw_data) = Ok self →
  (∀ kol_id kol, get_kol_by_id self kol_id = Some kol →
                 kol ∈ get_all_kols self ∧ id kol = kol_id) ∧
  (NoDup (id <$> get_all_kols self) →
   ∀ kol, kol ∈ get_all_kols self → get_kol_by_id self (id kol) = Some kol).
Proof.
  intros Hload. apply _load_data_inv in Hload as [_ Hidx].
  unfold get_kol_by_id, get_all_kols. rewrite Hidx.
  split.
  - intros kol_id kol. rewrite index_by_id_lookup.
    intros Hlast%last_Some_elem_of. by apply list_elem_of_filter in Hlast as [??].
  - intros Hnd kol (before & after & Hsplit)%list_elem_of_split.
    rewrite index_by_id_lookup. rewrite Hsplit in Hnd |- *.
    rewrite fmap_app, fmap_cons in Hnd.
    apply NoDup_app in Hnd as (_ & _ & [Hnotin _]%NoDup_cons).
    rewrite filter_app, filter_cons_True by done.
    rewrite (filter_no_match after); [apply last_snoc|].
    intros k Hk Heq. apply Hnotin. rewrite <-Heq. apply list_elem_of_fmap. by exists k.
Qed.

Lemma get_kol_by_id_round_trip_witness :
  let raw := [raw_3_5; <["id" := PyStr "8"]> raw_3_5] in
  ∃ self, _load_data no_lax (Parsed (array_of raw)) = Ok self ∧
    ∀ kol, kol ∈ get_all_kols self → get_kol_by_id self (id kol) = Some kol.
Proof.
  intros raw. eexists. split; [vm_compute; reflexivity|].
  apply (get_kol_by_id_round_trip no_lax (array_of raw) _ eq_refl).
  cbn. apply NoDup_cons. split; [|apply NoDup_singleton].
  intros Hin. apply list_elem_of_singleton in Hin. discriminate.
Defined.

(** ** Validation of raw records *)

Section Validation.
Lemma validate_fields_cons f rest item values errors :
  validate_fields (f :: rest) item values errors =
  match match item !! field_name f, field_default f with
        | Some v, _ => field_validate f values v
        | None, Some d => inl d
        | None, None => inr Missing
        end with
  | inl v => validate_fields rest item (<[field_name f := v]> values) errors
  | inr err => validate_fields rest item values (errors ++ [(field_name f, err)])
  end.
Proof. done. Qed.

Lemma validate_fields_errors fs item values errors :
  errors ≠ [] → (validate_fields fs item values errors).2 ≠ [].
Proof.
  revert values errors. induction fs as [|f fs IH]; intros values errors Hne; [done|].
  rewrite validate_fields_cons. case_match; apply IH; [done|].
  by destruct errors.
Qed.

Lemma validate_fields_failed fs item values errors out :
  errors ≠ [] → validate_fields fs item values errors ≠ (out, []).
Proof.
  intros Hne Heq. apply (validate_fields_errors fs item values errors Hne).
  by rewrite Heq.
Qed.
End Validation.

Section Acceptance.
Context (lax : pyval -> Z + field_error).

(** A field which leaves no error has a validated value, and validation
    goes on with it. *)
Lemma validate_fields_accepted f rest item values out :
  validate_fields (f :: rest) item values [] = (out, []) →
  ∃ w, match item !! field_name f, field_default f with
       | Some v, _ => field_validate f values v
       | None, Some d => inl d
       | None, None => inr Missing
       end = inl w ∧
       validate_fields rest item (<[field_name f := w]> values) [] = (out, []).
Proof.
  rewrite validate_fields_cons.
  destruct (match item !! field_name f, field_default f with
            | Some v, _ => field_validate f values v
            | None, Some d => inl d
            | None, None => inr Missing
            end) as [w|err].
  - by exists w.
  - intros H. exfalso. revert H. by apply validate_fields_failed.
Qed.


Lemma str_type_inl n v w :
  str_type n v = inl w →
  ∃ s, v = PyStr s ∧ w = PyStr s ∧ (n <= length (characters s))%nat.
Proof.
  destruct v as [| | | |s| |]; try done. cbn [str_type].
  destruct (length (characters s) <? n)%nat eqn:Hlen; [done|].
  intros [= <-]. exists s. split_and!; [done..|]. by apply Nat.ltb_ge.
Qed.

Lemma optional_str_type_inl v w :
  optional_str_type v = inl w →
  (v = PyNone ∧ w = PyNone) ∨ ∃ s, v = PyStr s ∧ w = PyStr s.
Proof.
  destruct v as [| | | |s| |]; try done; cbn.
  - intros [= <-]. by left.
  - intros [= <-]. right. by exists s.
Qed.

Lemma int_ge0_type_inl v w :
  int_ge0_type lax v = inl w →
  ∃ z, w = PyInt z ∧ 0 <= z ∧ reads_as lax (Some v) z.
Proof.
  unfold int_ge0_type. destruct (int_type lax v) as [z|err] eqn:Hz; [|done].
  destruct (z <? 0) eqn:Hneg; [done|]. apply Z.ltb_ge in Hneg.
  intros [= <-]. exists z. split_and!; [done..|].
  destruct v as [|b|z'|f|s|l|d]; cbn in Hz; try done.
  - right. exists (PyBool b). split_and!; [done..|]. left. by exists b.
  - left. by injection Hz as ->.
  - right. exists (PyFloat f). split_and!; [done..|]. right. left. by exists f.
  - right. exists (PyStr s). split_and!; [done..|]. right. right. by exists s.
Qed.


Lemma KOL_new_well_formed item kol : KOL_new lax item = Ok kol → well_formed lax item kol.
Proof.
  unfold KOL_new.
  destruct (validate_fields (KOL_fields lax) item ∅ []) as [values errors] eqn:Hv.
  destruct errors as [|err errors]; [|done].
  unfold KOL_fields in Hv.
  apply validate_fields_accepted in Hv as (w1 & H1 & Hv).
  apply validate_fields_accepted in Hv as (w2 & H2 & Hv).
  apply validate_fields_accepted in Hv as (w3 & H3 & Hv).
  apply validate_fields_accepted in Hv as (w4 & H4 & Hv).
  apply validate_fields_accepted in Hv as (w5 & H5 & Hv).
  apply validate_fields_accepted in Hv as (w6 & H6 & Hv).
  apply validate_fields_accepted in Hv as (w7 & H7 & Hv).
  apply validate_fields_accepted in Hv as (w8 & H8 & Hv).
  apply validate_fields_accepted in Hv as (w9 & H9 & Hv).
  cbn [validate_fields] in Hv. injection Hv as <-.
  cbn [field_name field_default field_validate] in *.
  destruct (item !! "id") as [v1|] eqn:E1; [|done].
  apply str_type_inl in H1 as (i & -> & -> & _).
  destruct (item !! "name") as [v2|] eqn:E2; [|done].
  apply str_type_inl in H2 as (n & -> & -> & Hn).
  destruct (item !! "affiliation") as [v3|] eqn:E3; [|done].
  apply str_type_inl in H3 as (af & -> & -> & _).
  destruct (item !! "country") as [v4|] eqn:E4; [|done].
  apply str_type_inl in H4 as (co & -> & -> & Hco).
  destruct (item !! "expertiseArea") as [v6|] eqn:E6; [|done].
  apply str_type_inl in H6 as (ar & -> & -> & _).
  destruct (item !! "publicationsCount") as [v7|] eqn:E7; [|done].
  unfold publicationsCount_validate in H7.
  destruct (int_ge0_type lax v7) as [w|err] eqn:Hint7; [|done].
  apply int_ge0_type_inl in Hint7 as (p & -> & Hp0 & Hp).
  unfold validate_publications_vs_hindex in H7.
  rewrite !lookup_insert_ne, lookup_empty in H7 by done. injection H7 as <-.
  destruct (item !! "hIndex") as [v8|] eqn:E8; [|done].
  apply int_ge0_type_inl in H8 as (h & -> & Hh0 & Hh).
  destruct (item !! "citations") as [v9|] eqn:E9; [|done].
  apply int_ge0_type_inl in H9 as (ct & -> & Hct0 & Hct).
  assert (n ≠ EmptyString) by (intros ->; cbn in Hn; lia).
  assert (co ≠ EmptyString) by (intros ->; cbn in Hco; lia).
  destruct (item !! "city") as [v5|] eqn:E5.
  - apply optional_str_type_inl in H5 as [[-> ->]|(ci & -> & ->)].
    all: vm_compute KOL_of_values; intros [= <-]; unfold well_formed; cbn.
    all: rewrite E7, E8, E9; split_and!; try done; by right.
  - injection H5 as <-.
    vm_compute KOL_of_values; intros [= <-]; unfold well_formed; cbn.
    rewrite E7, E8, E9; split_and!; try done; by left.
Qed.


End Acceptance.


(** ** When statistics exist *)

Section Existence.
Lemma int_true_div_zero (n : Z) : 0 < n → int_true_div 0 n = Ok (S754_zero false).
Proof.
  intros Hn. unfold int_true_div. destruct n as [|p|p]; [lia| |lia]. done.
Qed.

Lemma avg_citations_per_pub_zero kols avg :
  avg_citations_per_pub kols = Ok avg →
  sum (publicationsCount <$> kols) <= 0 ∨ sum (citations <$> kols) = 0 →
  avg = Int 0 ∨ ∃ s, avg = Float (S754_zero s).
Proof.
  unfold avg_citations_per_pub.
  destruct (sum (publicationsCount <$> kols) >? 0) eqn:Hp.
  - apply Z.gtb_lt in Hp. intros Havg [?|Hc]; [lia|].
    rewrite Hc in Havg. cbn in Havg. rewrite int_true_div_zero in Havg by done.
    injection Havg as <-. right. by eexists.
  - intros [= <-] _. by left.
Qed.
End Existence.

(** X8: statistics are returned only for a record set that has
    publications and citations: when the publication counts add up to
    nothing, or the citations do, [calculate_statistics] raises. *)
Theorem statistics_need_citations (self : KOLService.t) (stats : KOLStats.t) :
  calculate_statistics self = Ok stats →
  0 < sum (publicationsCount <$> get_all_kols self) ∧
  sum (citations <$> get_all_kols self) ≠ 0.
Proof.
  intros (Hne & l & Hl & Htop & _)%calculate_statistics_Ok.
  apply aggregates_Ok in Hl as (Havg & _ & _ & Hpairs%kol_with_ratios_Ok & _).
  destruct Hpairs as [Hfst Hratios]. unfold get_all_kols.
  destruct (decide (sum (publicationsCount <$> _kols self) <= 0 ∨
                    sum (citations <$> _kols self) = 0)) as [Hzero|Hpos]; [|lia].
  rewrite (top_citation_ratio_kol_zero l) in Htop; [done| |done|].
  - intros Hnil. by rewrite Hnil in Hfst.
  - by eapply avg_citations_per_pub_zero.
Qed.

Lemma statistics_need_citations_witness :
  0 < sum (publicationsCount <$> get_all_kols fixture) ∧
  sum (citations <$> get_all_kols fixture) ≠ 0.
Proof.
  assert (∃ stats, calculate_statistics fixture = Ok stats) as [stats Hstats]
    by (eexists; vm_compute; reflexivity).
  exact (statistics_need_citations fixture stats Hstats).
Defined.

(** ** Searching by a listed country *)

Lemma get_unique_countries_listed (self : KOLService.t) (c : string) :
  c ∈ get_unique_countries self → ∃ kol, kol ∈ _kols self ∧ country kol = c.
Proof.
  destruct (sorted_set_spec (country <$> _kols self)) as (_ & _ & Hin).
  unfold get_unique_countries. rewrite Hin, list_elem_of_fmap.
  intros (k & -> & Hk). by exists k.
Qed.

(** X9: after a successful load, every country listed by
    [get_unique_countries] is a non-empty string, and searching by it
    returns the records of that country, of which there is at least
    one. *)
Theorem search_by_listed_country lax lower raw_data self c :
  _load_data lax (Parsed raw_data) = Ok self →
  c ∈ get_unique_countries self →
  c ≠ EmptyString ∧
  search_kols lower self None (Some c) None None None =
    filter (fun kol => country kol = c) (get_all_kols self) ∧
  search_kols lower self None (Some c) None None None ≠ [].
Proof.
  intros Hload Hc. apply _load_data_inv in Hload as [(items & _ & Hkols) _].
  apply get_unique_countries_listed in Hc as (kol & Hkol & <-).
  assert (country kol ≠ EmptyString) as Hne.
  { apply comprehension_Forall2 in Hkols.
    apply list_elem_of_lookup_1 in Hkol as [i Hi].
    destruct (Forall2_lookup_r _ _ _ _ _ Hkols Hi) as (item & _ & Hitem).
    destruct item; try done. cbn in Hitem.
    apply KOL_new_well_formed in Hitem. unfold well_formed in Hitem. tauto. }
  assert (search_kols lower self None (Some (country kol)) None None None =
          filter (fun k => country k = country kol) (get_all_kols self)) as Heq.
  { unfold search_kols, truthy, get_all_kols. by destruct (country kol). }
  split_and!; [done..|].
  rewrite Heq. intros Hnil. eapply filter_nil_not_elem_of; [exact Hnil| |exact Hkol]. done.
Qed.

Lemma search_by_listed_country_witness :
  ∃ self, _load_data no_lax (Parsed (array_of [raw_3_5])) = Ok self ∧
    search_kols ascii_lower self None (Some "Korea") None None None ≠ [].
Proof.
  eexists. split; [vm_compute; reflexivity|].
  apply (search_by_listed_country no_lax ascii_lower (array_of [raw_3_5]) _ "Korea"
           eq_refl).
  vm_compute. left.
Defined.

(** ** The endpoints *)

Section Endpoints.
Import KolRouter Main.
Context (kol_service : KOLService.t) (describe : exn -> string)
        (lower : string -> string).

(** X10: the list endpoint raises nothing and always answers with
    [search_kols] of its parameters: taking the shortcut to
    [get_all_kols] when no filter is truthy changes nothing. *)
Theorem get_kols_is_search query country_ expertiseArea_ minHIndex maxHIndex :
  get_kols kol_service lower query country_ expertiseArea_ minHIndex maxHIndex =
  inl (search_kols lower kol_service query country_ expertiseArea_ minHIndex maxHIndex).
Proof.
  unfold get_kols, any.
  destruct query as [[|]|], country_ as [[|]|], expertiseArea_ as [[|]|],
    minHIndex, maxHIndex; done.
Qed.

(** X11: the statistics endpoint answers with the statistics when
    [calculate_statistics] returns them and with status 500 whatever it
    raises; on an empty store the detail is the message of the
    [ValueError], after the prefix for that class of exceptions. *)
Theorem get_kol_stats_status :
  match get_kol_stats kol_service describe with
  | inl stats => calculate_statistics kol_service = Ok stats
  | inr exc => status_code exc = 500 ∧ ∃ e, calculate_statistics kol_service = Raise e
  end ∧
  (_kols kol_service = [] →
   get_kol_stats kol_service describe =
     inr {| status_code := 500;
            detail := "Error calculating statistics: " ++
                      "No KOL data available for statistics calculation" |}).
Proof.
  unfold get_kol_stats. split.
  - destruct (calculate_statistics kol_service) as [stats|e]; [done|].
    destruct (is_ValueError e); (split; [done|by eexists]).
  - intros Hempty. unfold calculate_statistics. by rewrite Hempty.
Qed.

(** X12: the health check never reports an unhealthy service: its answer
    is the healthy response carrying the number of records. *)
Theorem health_check_healthy (app_version data_source : string) :
  health_check kol_service app_version data_source =
  Ok {| HealthResponse.status := "healthy";
        HealthResponse.version := app_version;
        HealthResponse.data_source := data_source;
        HealthResponse.total_kols := len (get_all_kols kol_service) |}.
Proof.
  unfold health_check, HealthResponse.new, len.
  destruct (Z.of_nat (length (get_all_kols kol_service)) <? 0) eqn:Hneg; [|done].
  apply Z.ltb_lt in Hneg. lia.
Qed.
End Endpoints.

(** X13: for a loaded store, the lookup endpoint answers with a record
    of the store bearing the id asked for, or, exactly when no record
    bears it, with status 404 and a detail naming the id, which
    [http_exception_handler] turns into a response of status 404 with
    that text as its error. *)
Theorem get_kol_by_id_endpoint lax raw_data self kol_id :
  _load_data lax (Parsed raw_data) = Ok self →
  match KolRouter.get_kol_by_id self kol_id with
  | inl kol => kol ∈ get_all_kols self ∧ id kol = kol_id
  | inr exc =>
      (∀ kol, kol ∈ get_all_kols self → id kol ≠ kol_id) ∧
      exc = {| KolRouter.status_code := 404;
               KolRouter.detail := "KOL with id '" ++ kol_id ++ "' not found" |} ∧
      Main.http_exception_handler exc =
        {| Main.response_status_code := 404;
           Main.content :=
             {| Main.error := "KOL with id '" ++ kol_id ++ "' not found";
                Main.content_status_code := 404;
                Main.content_detail := None |} |}
  end.
Proof.
  intros Hload. apply _load_data_inv in Hload as [_ Hidx].
  unfold KolRouter.get_kol_by_id, get_kol_by_id, get_all_kols. rewrite Hidx.
  rewrite index_by_id_lookup.
  destruct (last (filter (fun k => id k = kol_id) (_kols self))) as [kol|] eqn:Hlast.
  - apply last_Some_elem_of in Hlast. by apply list_elem_of_filter in Hlast as [??].
  - split; [|done]. apply last_None in Hlast.
    intros kol Hkol Hid. eapply filter_nil_not_elem_of; [exact Hlast| |exact Hkol]. done.
Qed.

Lemma get_kol_by_id_endpoint_witness :
  ∃ self, _load_data no_lax (Parsed (array_of [raw_3_5])) = Ok self ∧
    KolRouter.get_kol_by_id self "7" = inl (sample_7 "Dr Lee") ∧
    ∃ exc, KolRouter.get_kol_by_id self "9" = inr exc ∧
           KolRouter.status_code exc = 404.
Proof.
  eexists. split; [vm_compute; reflexivity|].
  split; [vm_compute; reflexivity|].
  pose proof (get_kol_by_id_endpoint no_lax (array_of [raw_3_5]) _ "9" eq_refl) as H.
  destruct (KolRouter.get_kol_by_id _ "9") as [kol|exc] eqn:Hexc.
  - destruct H as [_ H]. vm_compute in Hexc. discriminate.
  - exists exc. split; [reflexivity|]. destruct H as (_ & -> & _). reflexivity.
Defined.

(** ** What a search can return *)

(** X14: whatever its parameters, [search_kols] returns a sublist of the
    store: records of the store, each at most as often as the store
    holds it, in the order of the store. *)
Theorem search_kols_sublist (lower : string -> string) (self : KOLService.t)
    q c a lo hi :
  sublist (search_kols lower self q c a lo hi) (get_all_kols self).
Proof. rewrite search_kols_truthy. apply sublist_filter. Qed.

(** ** A store of one country *)

Section OneCountry.
Lemma int_true_div_self (n : Z) :
  0 < n → int_true_div n n = Ok (S754_finite false 4503599627370496 (-52)).
Proof.
  intros Hn. unfold int_true_div. destruct n as [|p|p]; [lia| |lia].
  cbn [Z.eqb Z2SF SFdiv xorb]. unfold SFdiv_core_binary.
  replace (Zdigits2 (Z.pos p) + 0 - (Zdigits2 (Z.pos p) + 0)) with 0 by lia.
  change (Z.min (fexp prec emax 0) (0 - 0)) with (-53).
  change (0 - 0 - -53) with 53. cbn match.
  rewrite Z.shiftl_mul_pow2 by lia.
  rewrite (surjective_pairing (Z.div_eucl _ _)).
  change (Z.div_eucl (Z.pos p * 2 ^ 53) (Z.pos p)).1
    with ((Z.pos p * 2 ^ 53) / Z.pos p).
  change (Z.div_eucl (Z.pos p * 2 ^ 53) (Z.pos p)).2
    with ((Z.pos p * 2 ^ 53) mod Z.pos p).
  rewrite (Z.mul_comm (Z.pos p)), Z.div_mul, Z.mod_mul by lia.
  assert (new_location (Z.pos p) 0 = loc_Exact) as ->.
  { unfold new_location. by destruct (Z.even (Z.pos p)). }
  by vm_compute.
Qed.

Lemma percentage_all (n : Z) :
  0 < n → percentage n n = Ok (Float (S754_finite false 7036874417766400 (-46))).
Proof.
  intros Hn. unfold percentage. cbn [div mbind result_bind].
  rewrite int_true_div_self by done. by vm_compute.
Qed.

Lemma NoDup_constant (c : string) (l : list string) :
  NoDup l → (∀ x, x ∈ l ↔ x = c) → l = [c].
Proof.
  intros Hnd Hl. destruct l as [|x l].
  - exfalso. by apply (not_elem_of_nil c), Hl.
  - assert (x = c) as -> by (apply Hl; left).
    destruct l as [|y l]; [done|].
    assert (y = c) as -> by (apply Hl; right; left).
    apply NoDup_cons in Hnd as [Hnotin _]. exfalso. apply Hnotin. left.
Qed.

Lemma occurrences_constant (c : string) (l : list string) :
  (∀ x, x ∈ l → x = c) → occurrences c l = Z.of_nat (length l).
Proof.
  intros Hl. unfold occurrences. f_equal. f_equal.
  induction l as [|x l IH]; [done|].
  rewrite filter_cons_True by (apply Hl; left). cbn. f_equal.
  apply IH. intros y Hy. apply Hl. by right.
Qed.

Lemma Counter_constant (c : string) (l : list string) :
  l ≠ [] → (∀ x, x ∈ l → x = c) → Counter l = [(c, Z.of_nat (length l))].
Proof.
  intros Hne Hl. destruct (Counter_keys l) as (Hnd & Hkeys & _).
  pose proof (Counter_counts l) as Hcounts.
  assert ((Counter l).*1 = [c]) as Hfst.
  { apply NoDup_constant; [done|]. intros x. rewrite Hkeys. split; [apply Hl|].
    intros ->. destruct l as [|y l]; [done|]. rewrite (Hl y) by left. left. }
  destruct (Counter l) as [|[k n] [|e rest]]; [done| |done].
  cbn in Hfst. injection Hfst as ->.
  apply Forall_cons in Hcounts as [Hn _]. cbn in Hn.
  by rewrite Hn, occurrences_constant.
Qed.
End OneCountry.

(** X15: when all the records of a store are of one country, the
    statistics have a single entry in [topCountries]: that country, with
    the number of records as its count and exactly the double 100.0 as
    its percentage. *)
Theorem one_country_is_all (self : KOLService.t) (stats : KOLStats.t) (c : string) :
  calculate_statistics self = Ok stats →
  (∀ kol, kol ∈ get_all_kols self → country kol = c) →
  KOLStats.topCountries stats =
    [{| CountryDistribution.country := c;
        CountryDistribution.count := len (get_all_kols self);
        CountryDistribution.percentage := S754_finite false 7036874417766400 (-46) |}] ∧
  (float_Q (S754_finite false 7036874417766400 (-46)) == 100)%Q.
Proof.
  intros (Hne & l & Hl & _ & _ & -> & _)%calculate_statistics_Ok Hc.
  split; [|by vm_compute].
  apply aggregates_Ok in Hl as (_ & Htop & _).
  unfold top_countries in Htop. unfold get_all_kols, len in *.
  rewrite (Counter_constant c) in Htop.
  - rewrite length_fmap in Htop. cbn -[percentage] in Htop.
    rewrite percentage_all in Htop by (by apply length_pos).
    cbn -[float_ge float_le] in Htop.
    destruct (Z.of_nat (length (_kols self)) <? 0) eqn:Hneg;
      [apply Z.ltb_lt in Hneg; lia|].
    change (float_ge (S754_finite false 7036874417766400 (-46)) 0) with true in Htop.
    change (float_le (S754_finite false 7036874417766400 (-46)) 100) with true in Htop.
    cbn in Htop. by injection Htop as <-.
  - intros Hnil. apply fmap_nil_inv in Hnil. done.
  - intros x (kol & -> & Hkol)%list_elem_of_fmap. by apply Hc.
Qed.

Lemma one_country_is_all_witness :
  ∃ stats, calculate_statistics one_dermatologist = Ok stats ∧
    KOLStats.topCountries stats =
      [{| CountryDistribution.country := "France";
          CountryDistribution.count := 1;
          CountryDistribution.percentage := S754_finite false 7036874417766400 (-46) |}].
Proof.
  eexists. split; [vm_compute; reflexivity|].
  apply (one_country_is_all one_dermatologist _ "France" eq_refl).
  intros kol Hkol. apply list_elem_of_singleton in Hkol. by rewrite Hkol.
Defined.
